(** * Verification of the filemanager: current-state projection, schema
    constraints, event-source rules and ingest function configuration. *)

From Stdlib Require Import Ascii String List Bool Arith NArith Lia Permutation.
Import ListNotations.
Open Scope string_scope.
Open Scope list_scope.

(** List length (the [String] library also exports a [length]). *)
Abbreviation length := Datatypes.length.

(* ------------------------------------------------------------------ *)
(** ** The [s3_object] table and [reset_current_state.sql] *)

Module ResetCurrentState.

(** The [event_type] enum ([create type event_type as enum ...]). *)
Inductive event_type :=
| Created | Deleted | DeletedLifecycle | Restored | RestoreExpired
| StorageClassChanged | Crawl | CrawlRestored | TaggingCreated | TaggingDeleted.

Definition event_type_eqb (a b : event_type) : bool :=
  match a, b with
  | Created, Created | Deleted, Deleted | DeletedLifecycle, DeletedLifecycle
  | Restored, Restored | RestoreExpired, RestoreExpired
  | StorageClassChanged, StorageClassChanged | Crawl, Crawl
  | CrawlRestored, CrawlRestored | TaggingCreated, TaggingCreated
  | TaggingDeleted, TaggingDeleted => true
  | _, _ => false
  end.

(** The columns of [s3_object] read or written by the query.  [version_id]
    and [sequencer] are nullable text. *)
Record s3_object := mk_s3_object {
  s3_object_id : nat;
  bucket : string;
  key : string;
  version_id : option string;
  sequencer : option string;
  event_type_of : event_type;
  is_delete_marker : bool;
  is_current_state : bool
}.

Definition opt_string_eqb (a b : option string) : bool :=
  match a, b with
  | Some x, Some y => String.eqb x y
  | None, None => true
  | _, _ => false
  end.

(** [a] sorts strictly before [b] under [order by sequencer desc nulls last]:
    larger (lexicographic) sequencers first, NULL after every non-NULL. *)
Definition seq_before (a b : option string) : bool :=
  match a, b with
  | Some x, Some y => String.ltb y x
  | Some _, None => true
  | None, _ => false
  end.

(** [row_number() over (partition by P order by sequencer desc nulls last) = 1]
    for the row at position [i] of the relation [l].  Rows whose sequencers tie
    keep the order in which the relation lists them. *)
Definition row_number_is_1 {A} (part : A -> A -> bool) (seq : A -> option string)
    (d : A) (l : list A) (i : nat) : bool :=
  let a := nth i l d in
  forallb (fun b => seq_before (seq a) (seq b)) (filter (part a) (firstn i l)) &&
  forallb (fun b => negb (seq_before (seq b) (seq a))) (filter (part a) (skipn (S i) l)).

(** Rows of [current_versions]: the lateral join of an input pair with the
    [s3_object] rows of that bucket and key. *)
Record current_version := mk_cv {
  cv_bucket : string;
  cv_key : string;
  cv_id : nat;
  cv_is_delete_marker : bool;
  cv_sequencer : option string;
  cv_is_current_version : bool
}.

Definition same_version (a b : s3_object) : bool :=
  opt_string_eqb (version_id a) (version_id b).

Definition dummy_object : s3_object :=
  mk_s3_object 0 "" "" None None Created false false.

(** [f] applied to each element with its position, counted from [n]. *)
Fixpoint mapi_from {A B} (f : nat -> A -> B) (n : nat) (l : list A) : list B :=
  match l with
  | [] => []
  | a :: l' => f n a :: mapi_from f (S n) l'
  end.

Definition mapi {A B} (f : nat -> A -> B) (l : list A) : list B := mapi_from f 0 l.

(** The lateral subquery for one input [(bucket, key)]. *)
Definition lateral (b k : string) (tbl : list s3_object) : list current_version :=
  let rows := filter (fun o => String.eqb b (bucket o) && String.eqb k (key o)) tbl in
  mapi (fun i o =>
    mk_cv b k (s3_object_id o) (is_delete_marker o) (sequencer o)
      (row_number_is_1 same_version sequencer dummy_object rows i &&
       (is_delete_marker o || event_type_eqb (event_type_of o) Created))) rows.

(** [current_versions as (select * from input cross join lateral (...))]. *)
Definition current_versions (input : list (string * string)) (tbl : list s3_object)
    : list current_version :=
  flat_map (fun bk => lateral (fst bk) (snd bk) tbl) input.

Definition same_state_partition (a b : current_version) : bool :=
  String.eqb (cv_bucket a) (cv_bucket b) && String.eqb (cv_key a) (cv_key b) &&
  Bool.eqb (cv_is_current_version a) (cv_is_current_version b).

Definition dummy_cv : current_version := mk_cv "" "" 0 false None false.

(** [current_state as (select s3_object_id, (...) as is_current_state ...)]. *)
Definition current_state (cvs : list current_version) : list (nat * bool) :=
  mapi (fun i c =>
    (cv_id c,
     row_number_is_1 same_state_partition cv_sequencer dummy_cv cvs i &&
     cv_is_current_version c && negb (cv_is_delete_marker c))) cvs.

(** [update s3_object set is_current_state = current_state.is_current_state
    from current_state where s3_object.s3_object_id = current_state.s3_object_id].
    When several [current_state] rows join one [s3_object] row, PostgreSQL
    applies one of them; [choose] is that choice. *)
Definition update_row (choose : list bool -> bool) (cs : list (nat * bool))
    (o : s3_object) : s3_object :=
  match map snd (filter (fun p => Nat.eqb (fst p) (s3_object_id o)) cs) with
  | [] => o
  | vs => mk_s3_object (s3_object_id o) (bucket o) (key o) (version_id o)
            (sequencer o) (event_type_of o) (is_delete_marker o) (choose vs)
  end.

Definition update_from (choose : list bool -> bool) (cs : list (nat * bool))
    (tbl : list s3_object) : list s3_object :=
  map (update_row choose cs) tbl.

Definition reset_current_state (choose : list bool -> bool)
    (input : list (string * string)) (tbl : list s3_object) : list s3_object :=
  update_from choose (current_state (current_versions input tbl)) tbl.

(** The projector as the specification (section 4.H) describes it, written
    over the [s3_object] table directly rather than through the lateral join:
    a row of a touched [(bucket, key)] is looked at among the rows of its
    bucket and key, in table order; the head of its [version_id] partition
    is a current version iff it is [Created] or a delete marker; the head of
    the current versions of the key is the current state unless it is a
    delete marker.  Rows of other keys keep their flag. *)
Definition same_bucket_key (a b : s3_object) : bool :=
  String.eqb (bucket a) (bucket b) && String.eqb (key a) (key b).

Definition touched (input : list (string * string)) (o : s3_object) : bool :=
  existsb (fun bk => String.eqb (fst bk) (bucket o) && String.eqb (snd bk) (key o)) input.

Fixpoint index_of (id : nat) (l : list s3_object) : nat :=
  match l with
  | [] => 0
  | o :: l' => if Nat.eqb (s3_object_id o) id then 0 else S (index_of id l')
  end.

Definition spec_is_current_version (blk : list s3_object) (i : nat) (o : s3_object)
    : bool :=
  row_number_is_1 same_version sequencer dummy_object blk i &&
  (is_delete_marker o || event_type_eqb (event_type_of o) Created).

Definition spec_is_current_state (blk : list s3_object) (i : nat) : bool :=
  let flagged := mapi (fun j o => (o, spec_is_current_version blk j o)) blk in
  let o := nth i blk dummy_object in
  row_number_is_1 (fun a b => Bool.eqb (snd a) (snd b)) (fun p => sequencer (fst p))
    (dummy_object, false) flagged i &&
  spec_is_current_version blk i o && negb (is_delete_marker o).

Definition set_current_state (o : s3_object) (v : bool) : s3_object :=
  mk_s3_object (s3_object_id o) (bucket o) (key o) (version_id o)
    (sequencer o) (event_type_of o) (is_delete_marker o) v.

Definition projector_spec (input : list (string * string)) (tbl : list s3_object)
    : list s3_object :=
  map (fun o =>
    if touched input o then
      let blk := filter (same_bucket_key o) tbl in
      set_current_state o (spec_is_current_state blk (index_of (s3_object_id o) blk))
    else o) tbl.

End ResetCurrentState.
(* ------------------------------------------------------------------ *)
(** ** The generated column [is_accessible]
    ([0006_s3_relax_is_accessible.sql]) *)

Module IsAccessible.

(** The [storage_class] enum. *)
Inductive storage_class :=
| DeepArchive | Glacier | GlacierIr | IntelligentTiering | OnezoneIa
| Outposts | ReducedRedundancy | Snow | Standard | StandardIa.

(** The [archive_status] enum. *)
Inductive archive_status := ArchiveAccess | DeepArchiveAccess.

Definition storage_class_eqb (a b : storage_class) : bool :=
  match a, b with
  | DeepArchive, DeepArchive | Glacier, Glacier | GlacierIr, GlacierIr
  | IntelligentTiering, IntelligentTiering | OnezoneIa, OnezoneIa
  | Outposts, Outposts | ReducedRedundancy, ReducedRedundancy | Snow, Snow
  | Standard, Standard | StandardIa, StandardIa => true
  | _, _ => false
  end.

(** The columns the generated expression reads; a nullable column is an
    [option]. [reason] has the [event_type] enum. *)
Record accessible_row := mk_accessible_row {
  ar_is_current_state : bool;
  ar_storage_class : option storage_class;
  ar_reason : option ResetCurrentState.event_type;
  ar_archive_status : option archive_status
}.

(** SQL three-valued logic: [None] is NULL. *)
Definition sql_and (a b : option bool) : option bool :=
  match a, b with
  | Some false, _ | _, Some false => Some false
  | Some true, Some true => Some true
  | _, _ => None
  end.

Definition sql_or (a b : option bool) : option bool :=
  match a, b with
  | Some true, _ | _, Some true => Some true
  | Some false, Some false => Some false
  | _, _ => None
  end.

(** [x != c] and [x = c] for a nullable column and a constant. *)
Definition sql_neq {A} (eqb : A -> A -> bool) (x : option A) (c : A) : option bool :=
  option_map (fun v => negb (eqb v c)) x.

Definition sql_eq {A} (eqb : A -> A -> bool) (x : option A) (c : A) : option bool :=
  option_map (fun v => eqb v c) x.

Definition sql_is_null {A} (x : option A) : option bool :=
  Some (match x with None => true | Some _ => false end).

(** The generated expression, as the migration writes it. *)
Definition is_accessible_expr (r : accessible_row) : option bool :=
  sql_and (Some (ar_is_current_state r))
    (sql_or (sql_is_null (ar_storage_class r))
       (sql_and (sql_neq storage_class_eqb (ar_storage_class r) Glacier)
          (sql_and
             (sql_or (sql_or (sql_neq storage_class_eqb (ar_storage_class r) DeepArchive)
                        (sql_eq ResetCurrentState.event_type_eqb (ar_reason r)
                           ResetCurrentState.Restored))
                (sql_eq ResetCurrentState.event_type_eqb (ar_reason r)
                   ResetCurrentState.CrawlRestored))
             (sql_or (sql_neq storage_class_eqb (ar_storage_class r) IntelligentTiering)
                (sql_is_null (ar_archive_status r)))))).

(** [is_accessible bool not null generated always as (...) stored]: the stored
    value, or [None] when the NOT NULL constraint rejects the row. *)
Definition is_accessible (r : accessible_row) : option bool :=
  is_accessible_expr r.

(** The two-valued reading of the column. *)
Definition reason_restored (r : option ResetCurrentState.event_type) : bool :=
  match r with
  | Some ResetCurrentState.Restored | Some ResetCurrentState.CrawlRestored => true
  | _ => false
  end.

Definition accessible_formula (r : accessible_row) : bool :=
  ar_is_current_state r &&
  match ar_storage_class r with
  | None => true
  | Some sc =>
      negb (storage_class_eqb sc Glacier) &&
      (negb (storage_class_eqb sc DeepArchive) || reason_restored (ar_reason r)) &&
      (negb (storage_class_eqb sc IntelligentTiering) ||
       match ar_archive_status r with None => true | Some _ => false end)
  end.

End IsAccessible.

(* ------------------------------------------------------------------ *)
(** ** The [s3_metadata] table ([v2/0006_s3_metadata.sql]) and its
    references to [object] and [historical_object] *)

Module S3Metadata.

(** The columns of [s3_metadata] that carry a constraint; the others
    ([storage_class], [e_tag], [tags], ...) are unconstrained and omitted.
    A [uuid] is a [nat]. *)
Record s3_metadata := mk_s3_metadata {
  s3_metadata_id : nat;
  object_id : option nat;
  historical_object_id : option nat
}.

(** The three tables, each as its rows (for [object] and
    [historical_object], their primary keys). *)
Record db := mk_db {
  objects : list nat;
  historical_objects : list nat;
  s3_metadata_rows : list s3_metadata
}.

Definition empty_db : db := mk_db [] [] [].

(** [num_nonnulls(object_id, historical_object_id)]. *)
Definition num_nonnulls (a b : option nat) : nat :=
  (if a then 1 else 0) + (if b then 1 else 0).

Definition opt_nat_eqb (a : option nat) (v : nat) : bool :=
  match a with Some x => Nat.eqb x v | None => false end.

(** [unique]: NULLs are distinct, a non-NULL value must not occur yet. *)
Definition unique_ok (f : s3_metadata -> option nat) (m : s3_metadata)
    (rows : list s3_metadata) : bool :=
  match f m with
  | None => true
  | Some v => negb (existsb (fun r => opt_nat_eqb (f r) v) rows)
  end.

(** [references t]: a non-NULL value must be a key of [t]. *)
Definition fk_ok (a : option nat) (keys : list nat) : bool :=
  match a with None => true | Some v => existsb (Nat.eqb v) keys end.

(** Every constraint of a new row [m] against the other rows [rows]. *)
Definition row_ok (d : db) (m : s3_metadata) (rows : list s3_metadata) : bool :=
  Nat.eqb (num_nonnulls (object_id m) (historical_object_id m)) 1 &&
  negb (existsb (fun r => Nat.eqb (s3_metadata_id r) (s3_metadata_id m)) rows) &&
  unique_ok object_id m rows && unique_ok historical_object_id m rows &&
  fk_ok (object_id m) (objects d) && fk_ok (historical_object_id m) (historical_objects d).

(** The statements on the three tables; a statement that violates a
    constraint fails ([None]). *)
Inductive statement :=
| InsertObject (o : nat)
| InsertHistoricalObject (h : nat)
| DeleteObject (o : nat)
| DeleteHistoricalObject (h : nat)
| InsertS3Metadata (m : s3_metadata)
| UpdateS3Metadata (m : s3_metadata)
| DeleteS3Metadata (id : nat).

Definition other_rows (id : nat) (rows : list s3_metadata) : list s3_metadata :=
  filter (fun r => negb (Nat.eqb (s3_metadata_id r) id)) rows.

Definition exec (d : db) (s : statement) : option db :=
  match s with
  | InsertObject o =>
      if existsb (Nat.eqb o) (objects d) then None
      else Some (mk_db (o :: objects d) (historical_objects d) (s3_metadata_rows d))
  | InsertHistoricalObject h =>
      if existsb (Nat.eqb h) (historical_objects d) then None
      else Some (mk_db (objects d) (h :: historical_objects d) (s3_metadata_rows d))
  | DeleteObject o =>
      (* [references object] with no [on delete] action: a referenced row
         cannot be deleted. *)
      if existsb (fun r => opt_nat_eqb (object_id r) o) (s3_metadata_rows d) then None
      else Some (mk_db (remove Nat.eq_dec o (objects d)) (historical_objects d)
                   (s3_metadata_rows d))
  | DeleteHistoricalObject h =>
      if existsb (fun r => opt_nat_eqb (historical_object_id r) h) (s3_metadata_rows d)
      then None
      else Some (mk_db (objects d) (remove Nat.eq_dec h (historical_objects d))
                   (s3_metadata_rows d))
  | InsertS3Metadata m =>
      if row_ok d m (s3_metadata_rows d)
      then Some (mk_db (objects d) (historical_objects d) (m :: s3_metadata_rows d))
      else None
  | UpdateS3Metadata m =>
      (* [update s3_metadata set ... where s3_metadata_id = id] *)
      let others := other_rows (s3_metadata_id m) (s3_metadata_rows d) in
      if existsb (fun r => Nat.eqb (s3_metadata_id r) (s3_metadata_id m)) (s3_metadata_rows d)
      then if row_ok d m others
           then Some (mk_db (objects d) (historical_objects d) (m :: others))
           else None
      else Some d
  | DeleteS3Metadata id =>
      Some (mk_db (objects d) (historical_objects d) (other_rows id (s3_metadata_rows d)))
  end.

(** A sequence of statements; a failed statement leaves the database as it
    was. *)
Fixpoint run (d : db) (ss : list statement) : db :=
  match ss with
  | [] => d
  | s :: ss' => run (match exec d s with Some d' => d' | None => d end) ss'
  end.

(** The rows of [rows] that reference [v] through the column [f]. *)
Definition referencing (f : s3_metadata -> option nat) (v : nat)
    (rows : list s3_metadata) : list s3_metadata :=
  filter (fun r => opt_nat_eqb (f r) v) rows.

End S3Metadata.

(* ------------------------------------------------------------------ *)
(** ** The ingest function ([functions/ingest.ts], [functions/function.ts])
    and its wiring in the stack ([constants.ts]) *)

Module IngestFunction.

(** [constants.ts] *)
Definition FILEMANAGER_SERVICE_NAME : string := "filemanager".
Definition FILEMANAGER_INGEST_ID_TAG_NAME : string := "umccr-org:OrcaBusFileManagerIngestId".

(** A [Record<string, string>] as its entries in insertion order. *)
Definition record := list (string * string).

(** [o[k] = v]: overwrite an existing key in place, or append a new one. *)
Fixpoint obj_set (o : record) (k v : string) : record :=
  match o with
  | [] => [(k, v)]
  | (k', v') :: o' => if String.eqb k k' then (k, v) :: o' else (k', v') :: obj_set o' k v
  end.

(** [{...o, ...e}]: the entries of [e] override those of [o]. *)
Definition spread (o e : record) : record :=
  fold_left (fun acc kv => obj_set acc (fst kv) (snd kv)) e o.

Fixpoint obj_get (o : record) (k : string) : option string :=
  match o with
  | [] => None
  | (k', v) :: o' => if String.eqb k k' then Some v else obj_get o' k
  end.

(** [n.toString()] for a natural number. *)
Fixpoint digits (fuel n : nat) (acc : string) : string :=
  match fuel with
  | 0 => acc
  | S f =>
      let acc' := String (Ascii.ascii_of_nat (48 + Nat.modulo n 10)) acc in
      if Nat.ltb n 10 then acc' else digits f (Nat.div n 10) acc'
  end.

Definition to_string (n : nat) : string := digits (S n) n "".

(** [s.replace(a, b)] with a one-character string pattern: only the first
    occurrence is replaced. *)
Fixpoint replace_first (a b : Ascii.ascii) (s : string) : string :=
  match s with
  | EmptyString => EmptyString
  | String c s' => if Ascii.eqb c a then String b s' else String c (replace_first a b s')
  end.

(** The fields of [FunctionProps] that the function's environment reads. *)
Record function_props := mk_function_props {
  package : string;
  host : string;
  port : nat;
  rustLog : option string;
  environment : option record
}.

(** The [environment] of the [RustFunction] built by [Function]. *)
Definition function_environment (p : function_props) : record :=
  spread
    [("PGHOST", host p);
     ("PGPORT", to_string (port p));
     ("PGDATABASE", FILEMANAGER_SERVICE_NAME);
     ("PGUSER", FILEMANAGER_SERVICE_NAME);
     ("RUST_LOG",
       match rustLog p with
       | Some l => l
       | None =>
           String.append "info,"
             (* [props.package.replace('-', '_')] *)
             (String.append (replace_first (Ascii.ascii_of_nat 45) (Ascii.ascii_of_nat 95) (package p))
                "=trace,filemanager=trace")
       end)]
    (match environment p with Some e => e | None => [] end).

(** A policy statement: its actions and resources. *)
Record policy_statement := mk_policy_statement {
  actions : list string;
  resources : list string
}.

Definition getObjectVersionActions : list string := ["s3:GetObjectVersion"].

Definition getObjectActions : list string :=
  ["s3:ListBucket"; "s3:ListBucketVersions"; "s3:GetObject"].

Definition objectTaggingActions : list string :=
  ["s3:GetObjectTagging"; "s3:GetObjectVersionTagging";
   "s3:PutObjectTagging"; "s3:PutObjectVersionTagging"].

Definition formatPoliciesForBucket (buckets actions : list string) : list policy_statement :=
  map (fun bucket =>
         mk_policy_statement actions
           [String.append "arn:aws:s3:::" bucket;
            String.append "arn:aws:s3:::" (String.append bucket "/*")])
    buckets.

(** The fields of [IngestFunctionProps] used here. *)
Record ingest_function_props := mk_ingest_function_props {
  ip_host : string;
  ip_port : nat;
  ip_rustLog : option string;
  ip_environment : option record;
  ip_buckets : list string
}.

(** The props [IngestFunction] passes to [super]:
    [{package, environment: {FILEMANAGER_INGESTER_TAG_NAME: ..., ...props.environment}, ...props}];
    the trailing [...props] replaces [environment] when [props] has one. *)
Definition ingest_super_props (p : ingest_function_props) : function_props :=
  mk_function_props "filemanager-ingest-lambda" (ip_host p) (ip_port p) (ip_rustLog p)
    (match ip_environment p with
     | Some e => Some e
     | None => Some (spread [("FILEMANAGER_INGESTER_TAG_NAME", FILEMANAGER_INGEST_ID_TAG_NAME)] [])
     end).

Definition ingest_environment (p : ingest_function_props) : record :=
  function_environment (ingest_super_props p).

(** [addPoliciesForBuckets(props.buckets, [...getObjectActions(), ...])]. *)
Definition ingest_policies (p : ingest_function_props) : list policy_statement :=
  formatPoliciesForBucket (ip_buckets p)
    (getObjectActions ++ getObjectVersionActions ++ objectTaggingActions).

(** The fields of [FileManagerStatelessProps] the ingest function reads; the
    type has no [environment] and no [rustLog] field. *)
Record stateless_props := mk_stateless_props {
  sp_port : nat;
  ingestBuckets : list string
}.

(** [FileManagerStack.createIngestFunction]: [{vpc, host, securityGroup,
    ingestQueues, buckets: props.ingestBuckets, role, ...props}]. *)
Definition createIngestFunction (stack_host : string) (p : stateless_props)
    : ingest_function_props :=
  mk_ingest_function_props stack_host (sp_port p) None None (ingestBuckets p).

End IngestFunction.

(* ------------------------------------------------------------------ *)
(** ** Event-source rules ([config.ts]: [eventSourcePattern],
    [eventSourcePatternCache], [getEventSourceConstructProps]) *)

Module EventSource.

(** A field value of a notification's [detail.object]. *)
Inductive json_value := JNum (n : nat) | JStr (s : string).

(** The fields of a notification a rule reads; [size] is absent from some
    event types. *)
Record notification := mk_notification {
  source : string;
  detail_type : string;
  bucket_name : string;
  object_key : string;
  object_size : option nat
}.

Inductive field := Key | Size.

Definition get_field (n : notification) (f : field) : option json_value :=
  match f with
  | Key => Some (JStr (object_key n))
  | Size => option_map JNum (object_size n)
  end.

(** EventBridge's [wildcard] pattern: [*] matches any run of characters. *)
Fixpoint wildcard_match (p : string) : string -> bool :=
  match p with
  | EmptyString => fun s => match s with EmptyString => true | _ => false end
  | String c p' =>
      if Ascii.eqb c (Ascii.ascii_of_nat 42) (* '*' *) then
        fix go (s : string) : bool :=
          wildcard_match p' s || match s with EmptyString => false | String _ s' => go s' end
      else
        fun s => match s with
                 | EmptyString => false
                 | String d s' => Ascii.eqb c d && wildcard_match p' s'
                 end
  end.

(** The content filters used: [{numeric: ['>', z]}] and
    [{'anything-but': {wildcard: ws}}]. *)
Inductive matcher :=
| NumericGt (z : nat)
| AnythingButWildcard (ws : list string).

(** A filter never matches an absent field. *)
Definition matcher_matches (m : matcher) (v : option json_value) : bool :=
  match m, v with
  | NumericGt z, Some (JNum x) => Nat.ltb z x
  | AnythingButWildcard ws, Some (JStr s) => forallb (fun w => negb (wildcard_match w s)) ws
  | _, _ => false
  end.

(** [{$or: [alt; ...]}], each alternative a set of fields, each field a list
    of filters of which one must match. *)
Definition object_pattern := list (list (field * list matcher)).

Definition object_pattern_matches (p : object_pattern) (n : notification) : bool :=
  existsb (fun alt =>
    forallb (fun fm => existsb (fun m => matcher_matches m (get_field n (fst fm))) (snd fm)) alt)
    p.

Definition eventSourcePattern : object_pattern :=
  [[(Size, [NumericGt 0])];
   [(Key, [AnythingButWildcard ["*/"]])]].

Definition eventSourcePatternCache : object_pattern :=
  [[(Key, [AnythingButWildcard ["byob-icav2/*/cache/*"]]); (Size, [NumericGt 0])];
   [(Key, [AnythingButWildcard ["byob-icav2/*/cache/*"; "*/"]])]].

(** An entry of [EventSourceProps.rules]. *)
Record rule := mk_rule {
  rule_bucket : string;
  eventTypes : list string;
  patterns : object_pattern
}.

Definition getEventSourceConstructProps (cache_buckets buckets : list string) : list rule :=
  let eventTypes :=
    ["Object Created"; "Object Deleted"; "Object Restore Completed";
     "Object Restore Expired"; "Object Storage Class Changed";
     "Object Access Tier Changed"] in
  map (fun bucket => mk_rule bucket eventTypes eventSourcePatternCache) cache_buckets ++
  map (fun bucket => mk_rule bucket eventTypes eventSourcePattern) buckets.

(** Modelled from the spec: [EventSourceConstruct] (its source is not in the
    repository) turns a rule into the event pattern the tests read back,
    [{source: ['aws.s3'], 'detail-type': eventTypes, detail: {bucket: {name:
    [bucket]}, object: patterns}}]. *)
Definition rule_matches (r : rule) (n : notification) : bool :=
  String.eqb (source n) "aws.s3" &&
  existsb (String.eqb (detail_type n)) (eventTypes r) &&
  String.eqb (bucket_name n) (rule_bucket r) &&
  object_pattern_matches (patterns r) n.

(** A notification is sent to the ingest queue when one of the rules matches. *)
Definition admitted (cache_buckets buckets : list string) (n : notification) : bool :=
  existsb (fun r => rule_matches r n) (getEventSourceConstructProps cache_buckets buckets).

End EventSource.

(* ------------------------------------------------------------------ *)
(** ** The [s3_event] log table ([create table s3_event]) and records from
    the inventory reader *)

Module S3Event.
Import ResetCurrentState.

(** The values an insert supplies for the columns of [s3_event]; [None] is
    NULL. A [timestamptz] is a [nat]. *)
Record s3_event := mk_s3_event {
  s3_event_id : nat;
  ev_event_type : option event_type;
  ev_event_time : option nat;
  ev_sequencer : option string;
  ev_bucket : option string;
  ev_key : option string;
  ev_version_id : option string;
  ev_size : option nat;
  ev_e_tag : option string
}.

Definition is_some {A} (x : option A) : bool := match x with Some _ => true | None => false end.

(** [insert into s3_event]: the primary key is new and the [not null]
    columns [event_type], [event_time], [sequencer], [bucket] and [key] are
    set; otherwise the insert is rejected. *)
Definition insert_s3_event (tbl : list s3_event) (e : s3_event) : option (list s3_event) :=
  if negb (existsb (fun r => Nat.eqb (s3_event_id r) (s3_event_id e)) tbl) &&
     is_some (ev_event_type e) && is_some (ev_event_time e) && is_some (ev_sequencer e) &&
     is_some (ev_bucket e) && is_some (ev_key e)
  then Some (e :: tbl)
  else None.

(** Modelled from the spec: a row of an inventory data file, with the
    columns the reader projects by name. *)
Record inventory_row := mk_inventory_row {
  ir_bucket : string;
  ir_key : string;
  ir_version_id : option string;
  ir_size : option nat;
  ir_e_tag : option string;
  ir_restored : bool
}.

(** Modelled from the spec: the record the inventory reader emits for a row
    of a file last modified at [last_modified], as the [s3_event] insert it
    feeds: [event_type = Crawl] (or [CrawlRestored] when the row's storage
    class indicates a restored archive), [event_time = last_modified],
    [sequencer = NULL]. *)
Definition inventory_record (id last_modified : nat) (r : inventory_row) : s3_event :=
  mk_s3_event id
    (Some (if ir_restored r then CrawlRestored else Crawl))
    (Some last_modified) None
    (Some (ir_bucket r)) (Some (ir_key r)) (ir_version_id r) (ir_size r) (ir_e_tag r).

End S3Event.

(* ------------------------------------------------------------------ *)
(** ** The crawler *)

Module Crawler.

(** Modelled from the spec: an [Object] as the crawl sees it, identified by
    [(bucket, key, version_id)], with its [lineage_id] and the [S3Metadata]
    fields a crawl record carries. *)
Record tracked := mk_tracked {
  t_bucket : string;
  t_key : string;
  t_version_id : option string;
  lineage_id : nat;
  t_size : option nat;
  t_e_tag : option string;
  t_storage_class : option string
}.

(** Modelled from the spec: an object the crawl lists, with the lineage tag
    found on it in the store, if any. *)
Record listed := mk_listed {
  l_bucket : string;
  l_key : string;
  l_version_id : option string;
  l_size : option nat;
  l_e_tag : option string;
  l_storage_class : option string;
  l_tag : option nat
}.

Record crawl_state := mk_crawl_state {
  tracked_objects : list tracked;
  next_lineage : nat
}.

Definition opt_str_eqb (a b : option string) : bool :=
  match a, b with
  | Some x, Some y => String.eqb x y
  | None, None => true
  | _, _ => false
  end.

Definition same_object (l : listed) (o : tracked) : bool :=
  String.eqb (l_bucket l) (t_bucket o) && String.eqb (l_key l) (t_key o) &&
  opt_str_eqb (l_version_id l) (t_version_id o).

Definition fill {A} (old new : option A) : option A :=
  match old with Some _ => old | None => new end.

(** Modelled from the spec: a crawl record fills in the missing metadata of
    a known object and keeps its [lineage_id]; an unknown object gets a new
    row, its lineage taken from its tag or freshly generated. *)
Definition crawl_record (st : crawl_state) (l : listed) : crawl_state :=
  if existsb (same_object l) (tracked_objects st) then
    mk_crawl_state
      (map (fun o => if same_object l o
                     then mk_tracked (t_bucket o) (t_key o) (t_version_id o) (lineage_id o)
                            (fill (t_size o) (l_size l)) (fill (t_e_tag o) (l_e_tag l))
                            (fill (t_storage_class o) (l_storage_class l))
                     else o)
         (tracked_objects st))
      (next_lineage st)
  else
    match l_tag l with
    | Some t =>
        mk_crawl_state
          (mk_tracked (l_bucket l) (l_key l) (l_version_id l) t
             (l_size l) (l_e_tag l) (l_storage_class l) :: tracked_objects st)
          (next_lineage st)
    | None =>
        mk_crawl_state
          (mk_tracked (l_bucket l) (l_key l) (l_version_id l) (next_lineage st)
             (l_size l) (l_e_tag l) (l_storage_class l) :: tracked_objects st)
          (S (next_lineage st))
    end.

Definition crawl (st : crawl_state) (listing : list listed) : crawl_state :=
  fold_left crawl_record listing st.

Definition object_id3 (o : tracked) : string * string * option string :=
  (t_bucket o, t_key o, t_version_id o).

Definition listed_id3 (l : listed) : string * string * option string :=
  (l_bucket l, l_key l, l_version_id l).

End Crawler.

(* ------------------------------------------------------------------ *)
(** ** Selecting stored objects by bucket, key and version id
    ([src/unnamed/part_006]) *)

Module SelectExisting.
Import ResetCurrentState.

(** [unnest($1::text[], $2::text[], $3::text[])]: one row per position up to
    the longest array, a shorter array padded with NULL. *)
Definition unnest3 (bs ks vs : list string)
    : list (option string * option string * option string) :=
  map (fun i => (nth_error bs i, nth_error ks i, nth_error vs i))
    (seq 0 (Nat.max (length bs) (Nat.max (length ks) (length vs)))).

(** [a = b] on text in a [where] clause: a NULL operand gives NULL, which
    does not select the row. *)
Definition sql_text_eq (a b : option string) : bool :=
  match a, b with
  | Some x, Some y => String.eqb x y
  | _, _ => false
  end.

(** [input.bucket = s3_object.bucket and input.key = s3_object.key and
    input.version_id = s3_object.version_id]. *)
Definition matches_input (inp : option string * option string * option string)
    (o : s3_object) : bool :=
  let '(b, k, v) := inp in
  sql_text_eq b (Some (bucket o)) && sql_text_eq k (Some (key o)) &&
  sql_text_eq v (version_id o).

(** [order by s3_object.sequencer desc nulls last], as an insertion sort;
    rows with equal sequencers may come in any order, here the order of the
    table. *)
Fixpoint insert_by_sequencer (x : s3_object) (l : list s3_object) : list s3_object :=
  match l with
  | [] => [x]
  | y :: l' =>
      if seq_before (sequencer x) (sequencer y) then x :: l
      else y :: insert_by_sequencer x l'
  end.

Definition order_by_sequencer (l : list s3_object) : list s3_object :=
  fold_right insert_by_sequencer [] l.

(** The lateral subquery for one input row. *)
Definition select_group (inp : option string * option string * option string)
    (tbl : list s3_object) : list s3_object :=
  order_by_sequencer (filter (matches_input inp) tbl).

(** The query: for each input row, the stored rows of its bucket, key and
    version id (only the columns of [s3_object] modelled here). *)
Definition select_existing (bs ks vs : list string) (tbl : list s3_object)
    : list s3_object :=
  flat_map (fun inp => select_group inp tbl) (unnest3 bs ks vs).

End SelectExisting.

(* ------------------------------------------------------------------ *)
(** ** The presign access key of the stateful stack
    ([getFileManagerStatefulProps] in [constants.ts]) *)

Module StatefulProps.
Import IngestFunction.

(** [accessKeyProps.policies]: [Function.formatPoliciesForBucket(buckets,
    [...Function.getObjectActions()])] with [buckets] the stage's buckets
    followed by its cache buckets. *)
Definition accessKeyPolicies (fileManagerBuckets cacheBuckets : list string)
    : list policy_statement :=
  formatPoliciesForBucket (fileManagerBuckets ++ cacheBuckets) getObjectActions.

End StatefulProps.

(* ------------------------------------------------------------------ *)
(** ** A sequence of inserts into [s3_event] *)

Module S3EventLog.
Import S3Event.

(** Inserts run one after another; a rejected insert leaves the table as it
    was. *)
Fixpoint insert_all (tbl : list s3_event) (es : list s3_event) : list s3_event :=
  match es with
  | [] => tbl
  | e :: es' =>
      insert_all (match insert_s3_event tbl e with Some t => t | None => tbl end) es'
  end.

End S3EventLog.

(* ------------------------------------------------------------------ *)
(** ** Ingest rules of the later stateful configuration ([config.ts]:
    [ingestPattern], [ingestCachePattern], [getIngestRules],
    [getAllowedBuckets], [getFileManagerStatefulProps]) *)

Module IngestRules.
Import EventSource IngestFunction.

Definition ingestPattern : object_pattern :=
  [[(Key, [AnythingButWildcard
             ["byob-icav2/.iap_upload_test.tmp"; "testdata/.iap_upload_test.tmp"]]);
    (Size, [NumericGt 0])];
   [(Key, [AnythingButWildcard
             ["byob-icav2/.iap_upload_test.tmp"; "testdata/.iap_upload_test.tmp"; "*/"]])]].

Definition ingestCachePattern : object_pattern :=
  [[(Key, [AnythingButWildcard
             ["byob-icav2/*/cache/*"; "byob-icav2/.iap_upload_test.tmp";
              "testdata/.iap_upload_test.tmp"]]);
    (Size, [NumericGt 0])];
   [(Key, [AnythingButWildcard
             ["byob-icav2/*/cache/*"; "*/"; "byob-icav2/.iap_upload_test.tmp";
              "testdata/.iap_upload_test.tmp"]])]].

(** The stage's cache buckets, its buckets and the cross-account buckets are
    parameters; the cross-account buckets get rules only on [PROD]. *)
Definition getIngestRules (stage : string)
    (cacheBuckets buckets crossAccountBuckets : list string) : list rule :=
  let eventTypes :=
    ["Object Created"; "Object Deleted"; "Object Restore Completed";
     "Object Restore Expired"; "Object Storage Class Changed";
     "Object Access Tier Changed"] in
  map (fun bucket => mk_rule bucket eventTypes ingestCachePattern) cacheBuckets ++
  map (fun bucket => mk_rule bucket eventTypes ingestPattern) buckets ++
  (if String.eqb stage "PROD"
   then map (fun bucket => mk_rule bucket eventTypes ingestPattern) crossAccountBuckets
   else []).

(** A notification is ingested when one of the rules matches
    ([rule_matches], modelled from the spec). *)
Definition ingested (stage : string) (cacheBuckets buckets crossAccountBuckets : list string)
    (n : notification) : bool :=
  existsb (fun r => rule_matches r n)
    (getIngestRules stage cacheBuckets buckets crossAccountBuckets).

Definition getAllowedBuckets (buckets cacheBuckets crossAccountBuckets : list string)
    : list string :=
  buckets ++ cacheBuckets ++ crossAccountBuckets.

(** [accessKeyProps.policies]: a one-element array holding the statements of
    [Function.formatPoliciesForBucket(getAllowedBuckets(stage), [...])]. *)
Definition statefulAccessKeyPolicies (buckets cacheBuckets crossAccountBuckets : list string)
    : list (list policy_statement) :=
  [formatPoliciesForBucket (getAllowedBuckets buckets cacheBuckets crossAccountBuckets)
     getObjectActions].

End IngestRules.

(* ================================================================== *)
(** * Proofs *)

(** ** Window functions and the lateral join *)

Module ProjectorFacts.
Import ResetCurrentState.

Lemma length_mapi_from {A B} (f : nat -> A -> B) n l :
  length (mapi_from f n l) = length l.
Proof. revert n; induction l; simpl; auto. Qed.

Lemma nth_mapi_from {A B} (f : nat -> A -> B) n l i (d : A) (d' : B) :
  i < length l -> nth i (mapi_from f n l) d' = f (n + i) (nth i l d).
Proof.
  revert n i; induction l as [|a l IH]; intros n i Hi; simpl in *; [lia|].
  destruct i as [|i]; [f_equal; lia|].
  rewrite IH by lia. f_equal; lia.
Qed.

Lemma in_mapi_from {A B} (f : nat -> A -> B) n l (d : A) y :
  In y (mapi_from f n l) -> exists i, i < length l /\ y = f (n + i) (nth i l d).
Proof.
  revert n; induction l as [|a l IH]; intros n H; simpl in H; [contradiction|].
  destruct H as [H|H].
  - exists 0. simpl. split; [lia|]. rewrite Nat.add_0_r. auto.
  - destruct (IH _ H) as [i [Hi Hy]]. exists (S i). simpl. split; [lia|].
    rewrite Hy. f_equal; lia.
Qed.

Lemma mapi_from_map {A B C} (f : nat -> A -> C) (g : B -> C) (h : nat -> A -> B) n l :
  (forall j a, f j a = g (h j a)) -> mapi_from f n l = map g (mapi_from h n l).
Proof.
  intros E; revert n; induction l; intros n; simpl; [auto|].
  rewrite E, IHl; auto.
Qed.

Lemma filter_all_false {A} (f : A -> bool) l :
  (forall x, In x l -> f x = false) -> filter f l = [].
Proof.
  induction l as [|a l IH]; intros H; simpl; [auto|].
  rewrite H by (left; auto). apply IH; intros; apply H; right; auto.
Qed.

Lemma filter_map_comm {A B} (f : B -> bool) (g : A -> B) l :
  filter f (map g l) = map g (filter (fun a => f (g a)) l).
Proof. induction l; simpl; [auto|]. destruct (f (g a)); simpl; rewrite IHl; auto. Qed.

Lemma skipn_app_len {A} (pre l : list A) j :
  skipn (length pre + j) (pre ++ l) = skipn j l.
Proof. induction pre; simpl; auto. Qed.

Lemma firstn_app_len {A} (pre l : list A) j :
  firstn (length pre + j) (pre ++ l) = pre ++ firstn j l.
Proof. induction pre; simpl; [auto|]. rewrite IHpre; auto. Qed.

(** The window result at a row depends only on the rows of its partition. *)
Lemma row_number_is_1_app {A} part seq (d : A) pre L post i :
  i < length L ->
  (forall x, In x pre \/ In x post -> part (nth i L d) x = false) ->
  row_number_is_1 part seq d (pre ++ L ++ post) (length pre + i) =
  row_number_is_1 part seq d L i.
Proof.
  intros Hi Hout. unfold row_number_is_1.
  assert (Hn : nth (length pre + i) (pre ++ L ++ post) d = nth i L d).
  { rewrite app_nth2_plus, app_nth1; auto. }
  rewrite Hn.
  replace (S (length pre + i)) with (length pre + S i) by lia.
  rewrite firstn_app_len, skipn_app_len.
  rewrite firstn_app.
  rewrite skipn_app. replace (S i - length L) with 0 by lia.
  simpl skipn.
  replace (i - length L) with 0 by lia. simpl firstn.
  rewrite !filter_app, app_nil_r.
  rewrite (filter_all_false _ pre) by (intros; apply Hout; auto).
  rewrite (filter_all_false _ post) by (intros; apply Hout; auto).
  simpl. rewrite app_nil_r. auto.
Qed.

Lemma forallb_map' {A B} (f : B -> bool) (g : A -> B) l :
  forallb f (map g l) = forallb (fun a => f (g a)) l.
Proof. induction l; simpl; [auto|]. rewrite IHl; auto. Qed.

Lemma filter_ext' {A} (f g : A -> bool) l :
  (forall a, f a = g a) -> filter f l = filter g l.
Proof. intros E; induction l; simpl; [auto|]. rewrite E, IHl; auto. Qed.

Lemma forallb_ext' {A} (f g : A -> bool) l :
  (forall a, f a = g a) -> forallb f l = forallb g l.
Proof. intros E; induction l; simpl; [auto|]. rewrite E, IHl; auto. Qed.

(** The window result is invariant under a renaming of the rows that keeps
    partitions and sequencers. *)
Lemma row_number_is_1_map {A B} (g : A -> B) part part' seq seq' (d : B) (d' : A) l i :
  (forall a b, part (g a) (g b) = part' a b) -> (forall a, seq (g a) = seq' a) ->
  i < length l ->
  row_number_is_1 part seq d (map g l) i = row_number_is_1 part' seq' d' l i.
Proof.
  intros Hp Hs Hi. unfold row_number_is_1.
  rewrite (nth_indep _ d (g d')) by (rewrite length_map; auto).
  rewrite map_nth, firstn_map, skipn_map, !filter_map_comm, !forallb_map'.
  rewrite (filter_ext' _ (part' (nth i l d'))) by (intros; apply Hp).
  rewrite (filter_ext' (fun a => part (g (nth i l d')) (g a)) (part' (nth i l d')))
    by (intros; apply Hp).
  f_equal; apply forallb_ext'; intros; rewrite !Hs; auto.
Qed.

(** Two rows of one partition cannot both be numbered 1. *)
Lemma row_number_is_1_unique {A} part seq (d : A) l i j :
  i < j -> j < length l ->
  part (nth i l d) (nth j l d) = true -> part (nth j l d) (nth i l d) = true ->
  row_number_is_1 part seq d l i = true -> row_number_is_1 part seq d l j = true ->
  False.
Proof.
  intros Hij Hj Pij Pji Ri Rj. unfold row_number_is_1 in *.
  apply andb_true_iff in Ri as [_ Ri]. apply andb_true_iff in Rj as [Rj _].
  rewrite forallb_forall in Ri, Rj.
  assert (H1 : In (nth i l d) (filter (part (nth j l d)) (firstn j l))).
  { apply filter_In. split; [|auto].
    replace (nth i l d) with (nth i (firstn j l) d)
      by (rewrite nth_firstn; destruct (Nat.ltb_spec i j); [auto|lia]).
    apply nth_In. rewrite length_firstn. lia. }
  assert (H2 : In (nth j l d) (filter (part (nth i l d)) (skipn (S i) l))).
  { apply filter_In. split; [|auto].
    replace (nth j l d) with (nth (j - S i) (skipn (S i) l) d).
    - apply nth_In. rewrite length_skipn. lia.
    - rewrite nth_skipn. f_equal. lia. }
  specialize (Rj _ H1). specialize (Ri _ H2).
  rewrite Rj in Ri. discriminate.
Qed.

Lemma NoDup_map_in {A B} (f : A -> B) l x y :
  NoDup (map f l) -> In x l -> In y l -> f x = f y -> x = y.
Proof.
  induction l as [|a l IH]; simpl; intros Hnd Hx Hy E; [contradiction|].
  inversion Hnd as [|? ? Hna Hnd']; subst.
  destruct Hx as [<-|Hx], Hy as [<-|Hy]; auto.
  - exfalso. apply Hna. rewrite E. apply in_map. auto.
  - exfalso. apply Hna. rewrite <- E. apply in_map. auto.
Qed.

Lemma NoDup_map_filter {A B} (f : A -> B) (p : A -> bool) l :
  NoDup (map f l) -> NoDup (map f (filter p l)).
Proof.
  induction l as [|a l IH]; simpl; intros Hnd; [constructor|].
  inversion Hnd as [|? ? Hna Hnd']; subst.
  destruct (p a); simpl; [|auto].
  constructor; [|auto].
  intros Hin. apply Hna. apply in_map_iff in Hin as [x [Ex Hx]].
  apply filter_In in Hx as [Hx _]. rewrite <- Ex. apply in_map. auto.
Qed.

Lemma index_of_spec id l :
  (exists o, In o l /\ s3_object_id o = id) ->
  index_of id l < length l /\ s3_object_id (nth (index_of id l) l dummy_object) = id.
Proof.
  induction l as [|a l IH]; simpl; intros [o [Ho Eo]]; [contradiction|].
  destruct (Nat.eqb_spec (s3_object_id a) id) as [E|E]; [split; [lia|auto]|].
  destruct Ho as [<-|Ho]; [contradiction|].
  destruct IH as [H1 H2]; [eauto|]. split; [lia|auto].
Qed.

Lemma touched_iff input o :
  touched input o = true <-> In (bucket o, key o) input.
Proof.
  unfold touched. rewrite existsb_exists. split.
  - intros [[b k] [Hin Hm]]. simpl in Hm.
    apply andb_true_iff in Hm as [Hb Hk].
    apply String.eqb_eq in Hb, Hk. subst. auto.
  - intros Hin. exists (bucket o, key o). split; [auto|]. simpl.
    rewrite !String.eqb_refl. auto.
Qed.

(** Every row of the lateral join comes from a table row of its key. *)
Lemma in_lateral b k tbl c :
  In c (lateral b k tbl) ->
  exists o, In o tbl /\ bucket o = b /\ key o = k /\ cv_id c = s3_object_id o /\
    cv_bucket c = b /\ cv_key c = k /\ cv_is_delete_marker c = is_delete_marker o.
Proof.
  unfold lateral, mapi. intros H.
  apply (in_mapi_from _ _ _ dummy_object) in H. destruct H as [i [Hi ->]].
  match goal with |- context [nth i ?rows dummy_object] => set (r := nth i rows dummy_object) end.
  assert (Hr : In r (filter (fun o => String.eqb b (bucket o) && String.eqb k (key o)) tbl))
    by (apply nth_In; auto).
  apply filter_In in Hr as [Hin Hf]. apply andb_true_iff in Hf as [Hb Hk].
  apply String.eqb_eq in Hb, Hk.
  exists r. simpl. repeat split; auto.
Qed.

Lemma in_current_versions input tbl c :
  In c (current_versions input tbl) ->
  exists b k, In (b, k) input /\ In c (lateral b k tbl).
Proof.
  unfold current_versions. intros H.
  apply in_flat_map in H as [[b k] [Hin Hc]]. exists b, k. auto.
Qed.

(** The value [current_state] computes at position [q]. *)
Definition state_value (cvs : list current_version) (q : nat) : bool :=
  row_number_is_1 same_state_partition cv_sequencer dummy_cv cvs q &&
  cv_is_current_version (nth q cvs dummy_cv) &&
  negb (cv_is_delete_marker (nth q cvs dummy_cv)).

Lemma in_current_state cvs p :
  In p (current_state cvs) ->
  exists q, q < length cvs /\ p = (cv_id (nth q cvs dummy_cv), state_value cvs q).
Proof.
  unfold current_state, mapi. intros H.
  apply (in_mapi_from _ _ _ dummy_cv) in H. destruct H as [q [Hq ->]].
  exists q. split; auto.
Qed.

Lemma current_state_at cvs q :
  q < length cvs ->
  In (cv_id (nth q cvs dummy_cv), state_value cvs q) (current_state cvs).
Proof.
  intros Hq. unfold current_state, mapi.
  replace (cv_id (nth q cvs dummy_cv), state_value cvs q)
    with (nth q (mapi_from (fun i c => (cv_id c,
            row_number_is_1 same_state_partition cv_sequencer dummy_cv cvs i &&
            cv_is_current_version c && negb (cv_is_delete_marker c))) 0 cvs) (0, false)).
  - apply nth_In. rewrite length_mapi_from. auto.
  - rewrite (nth_mapi_from _ _ _ _ dummy_cv) by auto. reflexivity.
Qed.

(** The update: a row with no joined [current_state] row is kept; a row whose
    joined rows all carry [v] gets [v]. *)
Section Update.
Variable choose : list bool -> bool.
Hypothesis choose_in : forall l, l <> [] -> In (choose l) l.

Lemma update_row_miss cs o :
  (forall v, ~ In (s3_object_id o, v) cs) -> update_row choose cs o = o.
Proof.
  intros H. unfold update_row.
  rewrite (filter_all_false _ cs); [auto|].
  intros [id v] Hin. simpl. destruct (Nat.eqb_spec id (s3_object_id o)); [|auto].
  subst. exfalso. eapply H. eauto.
Qed.

Lemma update_row_hit cs o v :
  In (s3_object_id o, v) cs ->
  (forall v', In (s3_object_id o, v') cs -> v' = v) ->
  update_row choose cs o = set_current_state o v.
Proof.
  intros Hin Huniq. unfold update_row.
  remember (map snd (filter (fun p => Nat.eqb (fst p) (s3_object_id o)) cs)) as vs eqn:Evs.
  assert (Hvs : forall w, In w vs -> w = v).
  { intros w Hw. subst vs. apply in_map_iff in Hw as [[id w'] [Ew Hw]].
    apply filter_In in Hw as [Hw Hid]. simpl in *. apply Nat.eqb_eq in Hid. subst.
    apply Huniq. auto. }
  assert (Hne : vs <> []).
  { intros E. assert (Hv : In v vs).
    { subst vs. apply in_map_iff. exists (s3_object_id o, v). split; [auto|].
      apply filter_In. split; [auto|]. apply Nat.eqb_refl. }
    rewrite E in Hv. contradiction. }
  destruct vs as [|w vs']; [contradiction|].
  unfold set_current_state. f_equal. apply Hvs. apply choose_in. auto.
Qed.

Lemma update_row_cases cs o :
  ((forall v, ~ In (s3_object_id o, v) cs) /\ update_row choose cs o = o) \/
  exists v, In (s3_object_id o, v) cs /\ update_row choose cs o = set_current_state o v.
Proof.
  unfold update_row.
  remember (map snd (filter (fun p => Nat.eqb (fst p) (s3_object_id o)) cs)) as vs eqn:Evs.
  destruct vs as [|w vs'].
  { left. split; [|auto]. intros v Hv.
    assert (Hw : In v (map snd (filter (fun p => Nat.eqb (fst p) (s3_object_id o)) cs))).
    { apply in_map_iff. exists (s3_object_id o, v). split; [auto|].
      apply filter_In. split; [auto|]. apply Nat.eqb_refl. }
    rewrite <- Evs in Hw. contradiction. }
  right.
  set (c := choose (w :: vs')).
  exists c. split; [|reflexivity].
  assert (Hc : In c (w :: vs')) by (apply choose_in; discriminate).
  clearbody c.
  rewrite Evs in Hc. apply in_map_iff in Hc as [[id v] [Ev Hv]].
  apply filter_In in Hv as [Hv Hid]. simpl in *. apply Nat.eqb_eq in Hid.
  rewrite <- Ev, <- Hid. exact Hv.
Qed.

End Update.

End ProjectorFacts.

(** ** The projector computes what section 4.H describes (claim C1) *)

Module ProjectorRefinement.
Import ResetCurrentState ProjectorFacts.

Definition cv_of (b k : string) (p : s3_object * bool) : current_version :=
  mk_cv b k (s3_object_id (fst p)) (is_delete_marker (fst p)) (sequencer (fst p)) (snd p).

Definition flagged (blk : list s3_object) : list (s3_object * bool) :=
  mapi (fun j o => (o, spec_is_current_version blk j o)) blk.

Lemma lateral_as_map o tbl :
  lateral (bucket o) (key o) tbl =
  map (cv_of (bucket o) (key o)) (flagged (filter (same_bucket_key o) tbl)).
Proof.
  unfold lateral, flagged, mapi. apply mapi_from_map. intros j a. reflexivity.
Qed.

Lemma length_flagged blk : length (flagged blk) = length blk.
Proof. apply length_mapi_from. Qed.

Lemma nth_flagged blk j :
  j < length blk ->
  nth j (flagged blk) (dummy_object, false) =
  (nth j blk dummy_object, spec_is_current_version blk j (nth j blk dummy_object)).
Proof. intros Hj. unfold flagged, mapi. rewrite (nth_mapi_from _ _ _ _ dummy_object); auto. Qed.

Lemma nth_map_cv_of b k l j :
  j < length l -> nth j (map (cv_of b k) l) dummy_cv = cv_of b k (nth j l (dummy_object, false)).
Proof.
  intros Hj. rewrite (nth_indep _ dummy_cv (cv_of b k (dummy_object, false)))
    by (rewrite length_map; auto).
  apply map_nth.
Qed.

(** A [current_versions] row carrying the id of a table row comes from that
    row, hence carries its bucket and key. *)
Lemma cv_origin input tbl o x :
  NoDup (map s3_object_id tbl) -> In o tbl ->
  In x (current_versions input tbl) -> cv_id x = s3_object_id o ->
  cv_bucket x = bucket o /\ cv_key x = key o /\ cv_is_delete_marker x = is_delete_marker o
  /\ In (bucket o, key o) input.
Proof.
  intros Hid Ho Hx Ex.
  destruct (in_current_versions _ _ _ Hx) as [b [k [Hin Hl]]].
  destruct (in_lateral _ _ _ _ Hl) as [o' [Ho' [Hb [Hk [Eid [Hcb [Hck Hdm]]]]]]].
  assert (o' = o) by (apply (NoDup_map_in s3_object_id tbl); auto; congruence).
  subst o'. subst b k. auto.
Qed.

Lemma split_current_versions input tbl b k :
  NoDup input -> In (b, k) input ->
  exists pre post,
    current_versions input tbl = pre ++ lateral b k tbl ++ post /\
    (forall x, In x pre \/ In x post -> (cv_bucket x, cv_key x) <> (b, k)).
Proof.
  intros Hnd Hin. destruct (in_split _ _ Hin) as [in1 [in2 E]].
  rewrite E in Hnd. assert (Hn := NoDup_remove_2 _ _ _ Hnd).
  exists (current_versions in1 tbl), (current_versions in2 tbl).
  split.
  - unfold current_versions. rewrite E, flat_map_app. reflexivity.
  - intros x Hx Ex.
    assert (Hx' : exists bk, In bk (in1 ++ in2) /\ In x (lateral (fst bk) (snd bk) tbl)).
    { destruct Hx as [Hx|Hx]; apply in_current_versions in Hx as [b' [k' [Hb Hl]]];
        exists (b', k'); split; auto; apply in_or_app; auto. }
    destruct Hx' as [[b' k'] [Hb Hl]]. simpl in Hl.
    destruct (in_lateral _ _ _ _ Hl) as [o' [_ [_ [_ [_ [Hcb [Hck _]]]]]]].
    apply Hn. rewrite Hcb, Hck in Ex. rewrite <- Ex. auto.
Qed.


(** The value the query computes for a touched row is the value the
    specification describes for it. *)
Lemma touched_row_value input tbl o :
  NoDup input -> NoDup (map s3_object_id tbl) -> In o tbl ->
  In (bucket o, key o) input ->
  let cvs := current_versions input tbl in
  let blk := filter (same_bucket_key o) tbl in
  exists p,
    p < length cvs /\ cv_id (nth p cvs dummy_cv) = s3_object_id o /\
    state_value cvs p = spec_is_current_state blk (index_of (s3_object_id o) blk) /\
    (forall q, q < length cvs -> cv_id (nth q cvs dummy_cv) = s3_object_id o -> q = p).
Proof.
  intros Hnd Hid Ho Hin cvs blk.
  assert (Hoblk : In o blk).
  { apply filter_In. split; [auto|]. unfold same_bucket_key. rewrite !String.eqb_refl. auto. }
  assert (HndB : NoDup (map s3_object_id blk)) by (apply NoDup_map_filter; auto).
  set (i := index_of (s3_object_id o) blk).
  destruct (index_of_spec (s3_object_id o) blk) as [Hi Hidi]; [eauto|].
  fold i in Hi, Hidi.
  assert (Hnth : nth i blk dummy_object = o).
  { apply (NoDup_map_in s3_object_id blk); auto. apply nth_In. auto. }
  destruct (split_current_versions input tbl (bucket o) (key o) Hnd Hin)
    as [pre [post [Hcvs Hdiff]]].
  fold cvs in Hcvs.
  set (L := lateral (bucket o) (key o) tbl) in *.
  assert (HL : L = map (cv_of (bucket o) (key o)) (flagged blk)) by apply lateral_as_map.
  assert (HlenL : length L = length blk) by (rewrite HL, length_map; apply length_flagged).
  assert (HnthL : forall j, j < length blk ->
            nth j L dummy_cv = cv_of (bucket o) (key o)
              (nth j blk dummy_object, spec_is_current_version blk j (nth j blk dummy_object))).
  { intros j Hj. rewrite HL, nth_map_cv_of, nth_flagged; auto. rewrite length_flagged; auto. }
  assert (Hpos : forall j, j < length L -> nth (length pre + j) cvs dummy_cv = nth j L dummy_cv).
  { intros j Hj. rewrite Hcvs, app_nth2_plus, app_nth1; auto. }
  assert (Hlen : length cvs = length pre + length L + length post)
    by (rewrite Hcvs, !length_app; lia).
  exists (length pre + i). split; [lia|]. split.
  { rewrite Hpos, HnthL by lia. simpl. rewrite Hnth. auto. }
  split.
  - unfold state_value. rewrite (Hpos i) by lia. rewrite Hcvs at 1.
    assert (Hout : forall x, In x pre \/ In x post ->
                     same_state_partition (nth i L dummy_cv) x = false).
    { intros x Hx. rewrite HnthL by lia. unfold same_state_partition. simpl.
      destruct (String.eqb_spec (bucket o) (cv_bucket x)) as [Eb|Eb]; [|auto].
      destruct (String.eqb_spec (key o) (cv_key x)) as [Ek|Ek]; [|auto].
      exfalso. apply (Hdiff x Hx). rewrite <- Eb, <- Ek. auto. }
    rewrite row_number_is_1_app by (auto; lia).
    rewrite HL.
    rewrite (row_number_is_1_map (cv_of (bucket o) (key o)) same_state_partition
               (fun a b => Bool.eqb (snd a) (snd b)) cv_sequencer (fun p => sequencer (fst p))
               dummy_cv (dummy_object, false))
      by first [ intros; unfold same_state_partition; simpl; rewrite !String.eqb_refl; auto
               | reflexivity | rewrite length_flagged; lia ].
    rewrite <- HL, HnthL by lia. unfold spec_is_current_state. fold (flagged blk).
    simpl. reflexivity.
  - intros q Hq Eq.
    assert (Hqin : In (nth q cvs dummy_cv) cvs) by (apply nth_In; auto).
    destruct (cv_origin _ _ _ _ Hid Ho Hqin Eq) as [Eb [Ek _]].
    destruct (Nat.lt_ge_cases q (length pre)) as [Hq1|Hq1].
    + exfalso. apply (Hdiff (nth q cvs dummy_cv)); [|rewrite Eb, Ek; auto].
      left. rewrite Hcvs, app_nth1 by auto. apply nth_In. auto.
    + destruct (Nat.lt_ge_cases q (length pre + length L)) as [Hq2|Hq2].
      * replace q with (length pre + (q - length pre)) in Eq |- * by lia.
        rewrite Hpos, HnthL in Eq by lia. simpl in Eq.
        assert (E1 : nth (q - length pre) blk dummy_object = nth i blk dummy_object).
        { apply (NoDup_map_in s3_object_id blk); auto; try (apply nth_In; lia).
          rewrite Eq, Hidi. auto. }
        apply (proj1 (NoDup_nth blk dummy_object)) in E1; [lia| |lia|lia].
        apply (NoDup_map_inv s3_object_id). auto.
      * exfalso. apply (Hdiff (nth q cvs dummy_cv)); [|rewrite Eb, Ek; auto].
        right. rewrite Hcvs, app_assoc, app_nth2 by (rewrite length_app; lia).
        apply nth_In. rewrite length_app. lia.
Qed.

Lemma touched_has_entry input tbl o :
  In o tbl -> In (bucket o, key o) input ->
  exists q, q < length (current_versions input tbl) /\
    cv_id (nth q (current_versions input tbl) dummy_cv) = s3_object_id o.
Proof.
  intros Ho Hin.
  set (blk := filter (same_bucket_key o) tbl).
  assert (Hoblk : In o blk).
  { apply filter_In. split; [auto|]. unfold same_bucket_key. rewrite !String.eqb_refl. auto. }
  destruct (In_nth _ _ dummy_object Hoblk) as [j [Hj Ej]].
  set (c := cv_of (bucket o) (key o) (o, spec_is_current_version blk j o)).
  assert (Hc : In c (current_versions input tbl)).
  { unfold current_versions. apply in_flat_map. exists (bucket o, key o). split; [auto|].
    simpl. rewrite lateral_as_map. fold blk.
    replace c with (nth j (map (cv_of (bucket o) (key o)) (flagged blk)) dummy_cv).
    - apply nth_In. rewrite length_map, length_flagged. auto.
    - rewrite nth_map_cv_of, nth_flagged, Ej; auto. rewrite length_flagged; auto. }
  destruct (In_nth _ _ dummy_cv Hc) as [q [Hq Eq]].
  exists q. split; [auto|]. rewrite Eq. reflexivity.
Qed.

Section Choice.
Variable choose : list bool -> bool.
Hypothesis choose_in : forall l, l <> [] -> In (choose l) l.

Lemma touched_update input tbl o :
  NoDup (map s3_object_id tbl) -> In o tbl -> In (bucket o, key o) input ->
  let cvs := current_versions input tbl in
  exists q, q < length cvs /\ cv_id (nth q cvs dummy_cv) = s3_object_id o /\
    update_row choose (current_state cvs) o = set_current_state o (state_value cvs q).
Proof.
  intros Hid Ho Hin cvs.
  destruct (update_row_cases choose choose_in (current_state cvs) o) as [[Hno _]|[v [Hv E]]].
  - exfalso. destruct (touched_has_entry input tbl o Ho Hin) as [q [Hq Eq]].
    apply (Hno (state_value cvs q)). rewrite <- Eq. apply current_state_at. auto.
  - apply in_current_state in Hv as [q [Hq Eq]]. injection Eq as E1 E2.
    exists q. split; [auto|]. split; [auto|]. rewrite E, E2. auto.
Qed.

Lemma untouched_update input tbl o :
  NoDup (map s3_object_id tbl) -> In o tbl -> ~ In (bucket o, key o) input ->
  update_row choose (current_state (current_versions input tbl)) o = o.
Proof.
  intros Hid Ho Hin. apply update_row_miss. intros v Hv.
  apply in_current_state in Hv as [q [Hq Eq]]. injection Eq as E1 _.
  assert (Hqin : In (nth q (current_versions input tbl) dummy_cv) (current_versions input tbl))
    by (apply nth_In; auto).
  destruct (cv_origin input tbl o _ Hid Ho Hqin (eq_sym E1)) as [_ [_ [_ H]]].
  contradiction.
Qed.

End Choice.

End ProjectorRefinement.

(** ** Claims about the current-state projection *)

Module Projector.
Import ResetCurrentState ProjectorFacts ProjectorRefinement.

(** [hd false] picks a member of a non-empty list: one admissible choice of
    PostgreSQL among joined rows. *)
Lemma hd_choose_in : forall l, l <> [] -> In (hd false l) l.
Proof. intros [|a l] H; [contradiction|]. left. auto. Qed.

Definition sample_table : list s3_object :=
  [mk_s3_object 1 "b" "k" (Some "v1") (Some "0A") Created false true;
   mk_s3_object 2 "b" "k" (Some "v2") (Some "0B") Created false false;
   mk_s3_object 3 "b" "k2" (Some "v1") (Some "0C") Created false true;
   mk_s3_object 4 "b" "k2" (Some "v1") None Created false true;
   mk_s3_object 5 "b" "k3" (Some "v1") (Some "0D") Created false true;
   mk_s3_object 6 "b" "k3" (Some "v2") (Some "0E") Created true false].

Example sample_projection :
  map is_current_state (reset_current_state (hd false) [("b", "k"); ("b", "k3")] sample_table)
  = [false; true; true; true; false; false].
Proof. reflexivity. Qed.

(** Claim C1.  For every list [input] of touched [(bucket, key)] pairs without
    repetition (a set K) and every [s3_object] table with distinct ids (its
    primary key), [reset_current_state.sql] leaves the rows outside K as they
    are and sets [is_current_state] of each row of K to the value of the
    two-step partition: head of its [version_id] partition (order by
    sequencer desc nulls last) that is [Created] or a delete marker, then the
    head of such current versions of its [(bucket, key)], not a delete
    marker.  Whichever joined row PostgreSQL applies does not matter. *)
Theorem reset_current_state_is_projector_spec choose input tbl :
  (forall l, l <> [] -> In (choose l) l) ->
  NoDup input -> NoDup (map s3_object_id tbl) ->
  reset_current_state choose input tbl = projector_spec input tbl.
Proof.
  intros Hc Hnd Hid. unfold reset_current_state, update_from, projector_spec.
  apply map_ext_in. intros o Ho.
  destruct (touched input o) eqn:Ht.
  - apply touched_iff in Ht.
    destruct (touched_row_value input tbl o Hnd Hid Ho Ht) as [p [Hp [Ep [Ev Hu]]]].
    transitivity (set_current_state o (state_value (current_versions input tbl) p)).
    2: { rewrite Ev. reflexivity. }
    apply update_row_hit; auto.
    + rewrite <- Ep. apply current_state_at. auto.
    + intros v' Hv'. apply in_current_state in Hv' as [q [Hq Eq]].
      injection Eq as E1 E2. rewrite E2. rewrite (Hu q); auto.
  - apply untouched_update; auto. rewrite <- touched_iff. congruence.
Qed.

Lemma reset_current_state_is_projector_spec_witness :
  NoDup [("b", "k"); ("b", "k3")] /\ NoDup (map s3_object_id sample_table) /\
  reset_current_state (hd false) [("b", "k"); ("b", "k3")] sample_table =
  projector_spec [("b", "k"); ("b", "k3")] sample_table.
Proof.
  assert (H1 : NoDup [("b", "k"); ("b", "k3")])
    by (repeat constructor; simpl; intuition congruence).
  assert (H2 : NoDup (map s3_object_id sample_table))
    by (repeat constructor; simpl; intuition congruence).
  split; [exact H1|]. split; [exact H2|].
  apply (reset_current_state_is_projector_spec (hd false)); [exact hd_choose_in|exact H1|exact H2].
Defined.

Lemma update_row_keeps choose cs o :
  bucket (update_row choose cs o) = bucket o /\ key (update_row choose cs o) = key o.
Proof. unfold update_row. destruct (map snd _); auto. Qed.

Definition stale_table : list s3_object :=
  [mk_s3_object 1 "b" "k" (Some "v1") (Some "0A") Created false true;
   mk_s3_object 2 "b" "k" (Some "v2") (Some "0B") Created true true].

(** Claim C2, as stated: after a run for an arbitrary input and table, at
    most one row per [(bucket, key)] is current state and no delete marker
    is.  It fails: the query only rewrites rows of the input pairs, so two
    current rows (one a delete marker) of a pair outside the input stay. *)
Lemma reset_current_state_untouched_rows_counterexample :
  let tbl' := reset_current_state (hd false) [] stale_table in
  exists o1 o2, In o1 tbl' /\ In o2 tbl' /\ o1 <> o2 /\
    bucket o1 = bucket o2 /\ key o1 = key o2 /\
    is_current_state o1 = true /\ is_current_state o2 = true /\
    is_delete_marker o2 = true.
Proof.
  exists (mk_s3_object 1 "b" "k" (Some "v1") (Some "0A") Created false true),
         (mk_s3_object 2 "b" "k" (Some "v2") (Some "0B") Created true true).
  vm_compute. intuition congruence.
Qed.

(** Claim C2, amended.  After a run with input [input] on a table with
    distinct ids: for every pair of the input at most one row is current
    state, no delete marker of the input pairs is current state, and the
    rows of other pairs are kept unchanged (so both properties hold for the
    whole table when they held before the run).  This holds whichever joined
    row PostgreSQL applies, also when the input repeats a pair. *)
Theorem reset_current_state_touched_invariants choose input tbl :
  (forall l, l <> [] -> In (choose l) l) ->
  NoDup (map s3_object_id tbl) ->
  let tbl' := reset_current_state choose input tbl in
  (forall o1 o2, In o1 tbl' -> In o2 tbl' -> In (bucket o1, key o1) input ->
     bucket o1 = bucket o2 -> key o1 = key o2 ->
     is_current_state o1 = true -> is_current_state o2 = true -> o1 = o2) /\
  (forall o, In o tbl' -> In (bucket o, key o) input ->
     is_delete_marker o = true -> is_current_state o = false) /\
  (forall o, In o tbl -> ~ In (bucket o, key o) input -> In o tbl').
Proof.
  intros Hc Hid tbl'.
  set (cvs := current_versions input tbl).
  assert (Hrow : forall o', In o' tbl' -> In (bucket o', key o') input ->
            exists o q, In o tbl /\ o' = set_current_state o (state_value cvs q) /\
              q < length cvs /\ cv_id (nth q cvs dummy_cv) = s3_object_id o).
  { intros o' Ho' Hin. unfold tbl', reset_current_state, update_from in Ho'.
    apply in_map_iff in Ho' as [o [Eo Ho]]. fold cvs in Eo.
    assert (Hin' : In (bucket o, key o) input).
    { destruct (update_row_keeps choose (current_state cvs) o) as [Eb Ek].
      rewrite Eo in Eb, Ek. rewrite <- Eb, <- Ek. auto. }
    destruct (touched_update choose Hc input tbl o Hid Ho Hin') as [q [Hq [Eq E']]].
    exists o, q. split; [auto|]. split; [|auto]. rewrite <- Eo. exact E'. }
  assert (Hval : forall o q, In o tbl -> q < length cvs ->
            cv_id (nth q cvs dummy_cv) = s3_object_id o -> state_value cvs q = true ->
            cv_bucket (nth q cvs dummy_cv) = bucket o /\ cv_key (nth q cvs dummy_cv) = key o /\
            is_delete_marker o = false /\
            cv_is_current_version (nth q cvs dummy_cv) = true /\
            row_number_is_1 same_state_partition cv_sequencer dummy_cv cvs q = true).
  { intros o q Ho Hq Eq Hv.
    destruct (cv_origin input tbl o (nth q cvs dummy_cv) Hid Ho (nth_In _ _ Hq) Eq)
      as [Eb [Ek [Ed _]]].
    unfold state_value in Hv. apply andb_true_iff in Hv as [Hv Hdm].
    apply andb_true_iff in Hv as [Hr Hcv].
    rewrite Ed in Hdm. apply negb_true_iff in Hdm. auto. }
  split; [|split].
  - intros o1' o2' H1 H2 Hin Eb Ek C1 C2.
    assert (Hin2 : In (bucket o2', key o2') input) by (rewrite <- Eb, <- Ek; auto).
    destruct (Hrow o1' H1 Hin) as [o1 [q1 [Ho1 [E1 [Hq1 Eq1]]]]].
    destruct (Hrow o2' H2 Hin2) as [o2 [q2 [Ho2 [E2 [Hq2 Eq2]]]]].
    subst o1' o2'. simpl in *.
    destruct (Hval o1 q1 Ho1 Hq1 Eq1 C1) as [B1 [K1 [_ [V1 R1]]]].
    destruct (Hval o2 q2 Ho2 Hq2 Eq2 C2) as [B2 [K2 [_ [V2 R2]]]].
    destruct (Nat.eq_dec q1 q2) as [->|Hne].
    + assert (o1 = o2) by (apply (NoDup_map_in s3_object_id tbl); auto; congruence).
      subst. reflexivity.
    + exfalso.
      assert (P12 : same_state_partition (nth q1 cvs dummy_cv) (nth q2 cvs dummy_cv) = true).
      { unfold same_state_partition. rewrite B1, B2, K1, K2, V1, V2, Eb, Ek, !String.eqb_refl.
        auto. }
      assert (P21 : same_state_partition (nth q2 cvs dummy_cv) (nth q1 cvs dummy_cv) = true).
      { unfold same_state_partition. rewrite B1, B2, K1, K2, V1, V2, Eb, Ek, !String.eqb_refl.
        auto. }
      destruct (Nat.lt_gt_cases q1 q2) as [[Hlt|Hgt] _]; [exact Hne| |].
      * exact (row_number_is_1_unique _ _ _ _ _ _ Hlt Hq2 P12 P21 R1 R2).
      * exact (row_number_is_1_unique _ _ _ _ _ _ Hgt Hq1 P21 P12 R2 R1).
  - intros o' H Hin Hdm. destruct (is_current_state o') eqn:C; [|auto].
    destruct (Hrow o' H Hin) as [o [q [Ho [E [Hq Eq]]]]]. subst o'. simpl in *.
    destruct (Hval o q Ho Hq Eq C) as [_ [_ [D _]]]. congruence.
  - intros o Ho Hin. unfold tbl', reset_current_state, update_from.
    rewrite <- (untouched_update choose input tbl o Hid Ho Hin).
    apply in_map. auto.
Qed.

Lemma reset_current_state_touched_invariants_witness :
  NoDup (map s3_object_id sample_table) /\
  (forall o1 o2,
     In o1 (reset_current_state (hd false) [("b", "k")] sample_table) ->
     In o2 (reset_current_state (hd false) [("b", "k")] sample_table) ->
     In (bucket o1, key o1) [("b", "k")] ->
     bucket o1 = bucket o2 -> key o1 = key o2 ->
     is_current_state o1 = true -> is_current_state o2 = true -> o1 = o2).
Proof.
  assert (H : NoDup (map s3_object_id sample_table))
    by (repeat constructor; simpl; intuition congruence).
  split; [exact H|].
  exact (proj1 (reset_current_state_touched_invariants (hd false) [("b", "k")] sample_table
                  hd_choose_in H)).
Defined.

Definition mixed_group : list s3_object :=
  [mk_s3_object 1 "b" "k" (Some "v1") (Some "0A") Created false false;
   mk_s3_object 2 "b" "k" (Some "v1") None Created false false].

(** Claim C4, as stated: in a group holding a NULL-sequencer record and a
    record with a sequencer, the NULL-sequencer record is the head.  It
    fails: [order by sequencer desc nulls last] puts the NULL record last, so
    the head is the record with a sequencer. *)
Lemma null_sequencer_head_counterexample :
  sequencer (nth 1 mixed_group dummy_object) = None /\
  same_version (nth 0 mixed_group dummy_object) (nth 1 mixed_group dummy_object) = true /\
  row_number_is_1 same_version sequencer dummy_object mixed_group 1 = false /\
  row_number_is_1 same_version sequencer dummy_object mixed_group 0 = true /\
  map is_current_state (reset_current_state (hd false) [("b", "k")] mixed_group) = [true; false].
Proof. vm_compute. repeat split. Qed.

Lemma string_compare_refl s : String.compare s s = Eq.
Proof.
  induction s as [|c s IH]; simpl; [auto|].
  unfold Ascii.compare. rewrite N.compare_refl. auto.
Qed.

Lemma ltb_false_leb x y : String.ltb x y = false -> String.leb y x = true.
Proof.
  unfold String.ltb, String.leb. rewrite (String.compare_antisym y x).
  destruct (String.compare x y); simpl; auto.
Qed.

(** Claim C4, amended.  Within a [version_id] group the projector orders by
    sequencer descending (lexicographic), NULL after every non-NULL
    sequencer: the head it selects has the greatest sequencer of its group,
    so a NULL-sequencer record is the head only when no record of the group
    has a sequencer. *)
Theorem version_head_has_greatest_sequencer rows i :
  i < length rows ->
  row_number_is_1 same_version sequencer dummy_object rows i = true ->
  forall b y, In b rows -> same_version (nth i rows dummy_object) b = true ->
  sequencer b = Some y ->
  exists x, sequencer (nth i rows dummy_object) = Some x /\ String.leb y x = true.
Proof.
  intros Hi Hr b y Hb Hv Hy.
  set (a := nth i rows dummy_object) in *.
  unfold row_number_is_1 in Hr. fold a in Hr.
  apply andb_true_iff in Hr as [Hbef Haft]. rewrite forallb_forall in Hbef, Haft.
  rewrite <- (firstn_skipn_middle i rows (nth_error_nth' rows dummy_object Hi)) in Hb. fold a in Hb.
  apply in_app_or in Hb as [Hb|[<-|Hb]].
  - specialize (Hbef b (proj2 (filter_In _ _ _) (conj Hb Hv))).
    rewrite Hy in Hbef. unfold seq_before in Hbef.
    destruct (sequencer a) as [x|]; [|discriminate].
    exists x. split; [auto|]. unfold String.ltb, String.leb in *.
    destruct (String.compare y x); auto; discriminate.
  - rewrite Hy. exists y. split; [auto|]. unfold String.leb.
    rewrite string_compare_refl. auto.
  - specialize (Haft b (proj2 (filter_In _ _ _) (conj Hb Hv))).
    rewrite Hy in Haft. unfold seq_before in Haft.
    destruct (sequencer a) as [x|]; [|discriminate].
    exists x. split; [auto|]. apply ltb_false_leb. apply negb_true_iff in Haft. auto.
Qed.

Lemma version_head_has_greatest_sequencer_witness :
  exists x, sequencer (nth 0 mixed_group dummy_object) = Some x /\ String.leb "0A" x = true.
Proof.
  apply (version_head_has_greatest_sequencer mixed_group 0 ltac:(simpl; lia)
           ltac:(vm_compute; reflexivity) (nth 0 mixed_group dummy_object) "0A");
    [simpl; auto | vm_compute; reflexivity | reflexivity].
Defined.

End Projector.


(* ------------------------------------------------------------------ *)
(** ** The generated column [is_accessible] *)

Module Accessible.
Import IsAccessible ResetCurrentState.

(** The expression is NULL (so the row is rejected by NOT NULL) exactly for a
    current-state DeepArchive row whose [reason] is NULL. *)
Lemma is_accessible_null_iff r :
  is_accessible r = None <->
  ar_is_current_state r = true /\ ar_storage_class r = Some DeepArchive /\ ar_reason r = None.
Proof.
  destruct r as [[] sc rs st]; simpl;
    destruct sc as [[]|]; destruct rs as [[]|]; destruct st as [[]|];
    vm_compute; intuition congruence.
Qed.

(** Claim C3: for every row the column can hold (its stored value [b]),
    [b] equals [is_current_state AND (storage_class IS NULL OR (storage_class
    <> Glacier AND (storage_class <> DeepArchive OR reason IN (Restored,
    CrawlRestored)) AND (storage_class <> IntelligentTiering OR archive_status
    IS NULL)))], a function of the four columns only; a NULL storage class
    gives [is_current_state]. *)
Theorem is_accessible_eq_formula r b :
  is_accessible r = Some b ->
  b = accessible_formula r /\ (ar_storage_class r = None -> b = ar_is_current_state r).
Proof.
  destruct r as [[] sc rs st]; unfold accessible_formula; simpl;
    destruct sc as [[]|]; destruct rs as [[]|]; destruct st as [[]|];
    vm_compute; intros H; inversion H; subst; split; intros; congruence.
Qed.

Lemma is_accessible_eq_formula_witness :
  let r := mk_accessible_row true (Some DeepArchive) (Some CrawlRestored) None in
  is_accessible r = Some true /\
  (true = accessible_formula r /\ (ar_storage_class r = None -> true = ar_is_current_state r)).
Proof.
  intros r. split; [vm_compute; reflexivity|].
  apply (is_accessible_eq_formula r true). vm_compute. reflexivity.
Defined.

End Accessible.

(* ------------------------------------------------------------------ *)
(** ** The [s3_metadata] references are exclusive and one-to-one *)

Module S3MetadataFacts.
Import S3Metadata.

(** The non-NULL values of column [f]. *)
Definition ids (f : s3_metadata -> option nat) (rows : list s3_metadata) : list nat :=
  flat_map (fun r => match f r with Some v => [v] | None => [] end) rows.

(** The constraints, stated over all rows [rows] of [s3_metadata] given the
    keys [os] of [object] and [hs] of [historical_object]. *)
Definition rows_inv (os hs : list nat) (rows : list s3_metadata) : Prop :=
  (forall r, In r rows -> num_nonnulls (object_id r) (historical_object_id r) = 1) /\
  (forall r o, In r rows -> object_id r = Some o -> In o os) /\
  (forall r h, In r rows -> historical_object_id r = Some h -> In h hs) /\
  NoDup (ids object_id rows) /\
  NoDup (ids historical_object_id rows).

Definition inv (d : db) : Prop :=
  rows_inv (objects d) (historical_objects d) (s3_metadata_rows d).

Lemma in_ids f rows v : In v (ids f rows) <-> exists r, In r rows /\ f r = Some v.
Proof.
  unfold ids. rewrite in_flat_map. split.
  - intros [r [Hr Hv]]. exists r. split; [auto|].
    destruct (f r) as [x|]; simpl in Hv; [destruct Hv as [->|[]]; auto | contradiction].
  - intros [r [Hr Hv]]. exists r. rewrite Hv. simpl. auto.
Qed.

Lemma opt_nat_eqb_spec a v : opt_nat_eqb a v = true <-> a = Some v.
Proof.
  destruct a as [x|]; simpl; [rewrite Nat.eqb_eq; split; congruence | split; discriminate].
Qed.

Lemma nodup_ids_tail f r rows : NoDup (ids f (r :: rows)) -> NoDup (ids f rows).
Proof. unfold ids. simpl. apply NoDup_app_remove_l. Qed.

Lemma nodup_ids_filter f p rows : NoDup (ids f rows) -> NoDup (ids f (filter p rows)).
Proof.
  induction rows as [|r rows IH]; simpl; [auto|].
  intros H. destruct (p r); simpl.
  - destruct (f r) as [v|] eqn:E; simpl in *; [|auto].
    inversion H as [|? ? Hn Hnd]; subst. constructor; [|auto].
    intros Hin. apply Hn. apply in_ids in Hin as [r' [Hr' Hv]].
    apply in_ids. exists r'. split; [apply filter_In in Hr' as [? _]|]; auto.
  - apply IH. apply (nodup_ids_tail f r rows H).
Qed.

Lemma nodup_ids_cons f m rows :
  NoDup (ids f rows) -> unique_ok f m rows = true -> NoDup (ids f (m :: rows)).
Proof.
  unfold unique_ok. simpl. destruct (f m) as [v|] eqn:E; simpl; [|auto].
  intros Hnd Hu. constructor; [|auto].
  intros Hin. apply in_ids in Hin as [r [Hr Hv]].
  apply negb_true_iff in Hu.
  assert (Hx : existsb (fun r => opt_nat_eqb (f r) v) rows = true).
  { apply existsb_exists. exists r. split; [auto|]. apply opt_nat_eqb_spec. auto. }
  congruence.
Qed.

Lemma referencing_le_1 f v rows :
  NoDup (ids f rows) -> length (referencing f v rows) <= 1.
Proof.
  intros Hnd.
  assert (Hz : forall l, NoDup (ids f l) -> ~ In v (ids f l) ->
                 length (referencing f v l) = 0).
  { induction l as [|r l IH]; simpl; [auto|]. intros Hn Hni.
    destruct (opt_nat_eqb (f r) v) eqn:E.
    - exfalso. apply Hni. apply opt_nat_eqb_spec in E. rewrite E. simpl. auto.
    - apply IH.
      + apply (nodup_ids_tail f r l Hn).
      + intros Hin. apply Hni. apply in_or_app. right. auto. }
  induction rows as [|r rows IH]; simpl; [lia|].
  destruct (opt_nat_eqb (f r) v) eqn:E.
  - apply opt_nat_eqb_spec in E. unfold ids in Hnd. simpl in Hnd. rewrite E in Hnd.
    inversion Hnd as [|? ? Hn Hnd']; subst. simpl. rewrite (Hz rows Hnd' Hn). lia.
  - apply IH. apply (nodup_ids_tail f r rows Hnd).
Qed.

Lemma num_nonnulls_one a b :
  num_nonnulls a b = 1 <->
  (exists x, a = Some x /\ b = None) \/ (exists y, a = None /\ b = Some y).
Proof.
  unfold num_nonnulls.
  destruct a as [x|], b as [y|]; simpl; split; intros H.
  - discriminate.
  - destruct H as [[? [? ?]]|[? [? ?]]]; congruence.
  - left. exists x. auto.
  - reflexivity.
  - right. exists y. auto.
  - reflexivity.
  - discriminate.
  - destruct H as [[? [? ?]]|[? [? ?]]]; congruence.
Qed.

Lemma fk_ok_spec a keys v : fk_ok a keys = true -> a = Some v -> In v keys.
Proof.
  intros H ->. simpl in H. apply existsb_exists in H as [x [Hx E]].
  apply Nat.eqb_eq in E. subst. auto.
Qed.

Lemma rows_inv_filter os hs p rows : rows_inv os hs rows -> rows_inv os hs (filter p rows).
Proof.
  intros (H1 & H2 & H3 & H4 & H5).
  repeat split; try apply nodup_ids_filter; auto.
  - intros r Hr. apply filter_In in Hr as [Hr _]. auto.
  - intros r o Hr. apply filter_In in Hr as [Hr _]. eauto.
  - intros r h Hr. apply filter_In in Hr as [Hr _]. eauto.
Qed.

Lemma rows_inv_cons d m rows :
  rows_inv (objects d) (historical_objects d) rows -> row_ok d m rows = true ->
  rows_inv (objects d) (historical_objects d) (m :: rows).
Proof.
  intros (H1 & H2 & H3 & H4 & H5) Hok. unfold row_ok in Hok.
  repeat rewrite andb_true_iff in Hok.
  destruct Hok as [[[[[Hn _] Huo] Huh] Hfo] Hfh].
  apply Nat.eqb_eq in Hn.
  repeat split.
  - intros r [<-|Hr]; auto.
  - intros r o [<-|Hr] Ho; [apply (fk_ok_spec _ _ _ Hfo Ho) | eauto].
  - intros r h [<-|Hr] Hh; [apply (fk_ok_spec _ _ _ Hfh Hh) | eauto].
  - apply nodup_ids_cons; auto.
  - apply nodup_ids_cons; auto.
Qed.

Lemma no_reference (f : s3_metadata -> option nat) rows v r :
  existsb (fun r => opt_nat_eqb (f r) v) rows = false -> In r rows -> f r <> Some v.
Proof.
  intros Hx Hr Hv.
  assert (existsb (fun r => opt_nat_eqb (f r) v) rows = true).
  { apply existsb_exists. exists r. split; [auto|]. apply opt_nat_eqb_spec. auto. }
  congruence.
Qed.

(** Every statement keeps the constraints. *)
Lemma exec_inv d s d' : inv d -> exec d s = Some d' -> inv d'.
Proof.
  unfold inv. intros Hi. pose proof Hi as (H1 & H2 & H3 & H4 & H5).
  destruct s as [o|h|o|h|m|m|id]; simpl.
  - destruct (existsb (Nat.eqb o) (objects d)); intros E; inversion E; subst; clear E.
    simpl. repeat split; auto. intros r o' Hr Ho. right. eauto.
  - destruct (existsb (Nat.eqb h) (historical_objects d)); intros E; inversion E; subst.
    simpl. repeat split; auto. intros r h' Hr Hh. right. eauto.
  - destruct (existsb _ (s3_metadata_rows d)) eqn:Ex; intros E; inversion E; subst.
    simpl. repeat split; auto. intros r o' Hr Ho.
    apply in_in_remove; [|eauto]. intros ->. exact (no_reference _ _ _ _ Ex Hr Ho).
  - destruct (existsb _ (s3_metadata_rows d)) eqn:Ex; intros E; inversion E; subst.
    simpl. repeat split; auto. intros r h' Hr Hh.
    apply in_in_remove; [|eauto]. intros ->. exact (no_reference _ _ _ _ Ex Hr Hh).
  - destruct (row_ok d m (s3_metadata_rows d)) eqn:Hok; intros E; inversion E; subst.
    apply rows_inv_cons; auto.
  - destruct (existsb _ (s3_metadata_rows d)).
    + destruct (row_ok d m _) eqn:Hok; intros E; inversion E; subst.
      apply rows_inv_cons; [apply rows_inv_filter|]; auto.
    + intros E; inversion E; subst. auto.
  - intros E; inversion E; subst. apply rows_inv_filter. auto.
Qed.

Lemma run_inv ss d : inv d -> inv (run d ss).
Proof.
  revert d. induction ss as [|s ss IH]; simpl; [auto|].
  intros d Hd. apply IH. destruct (exec d s) eqn:E; [apply (exec_inv d s); auto | auto].
Qed.

Lemma empty_inv : inv empty_db.
Proof. repeat split; simpl; try contradiction; constructor. Qed.

End S3MetadataFacts.

(* ------------------------------------------------------------------ *)
(** ** Exclusive one-to-one references of [s3_metadata] *)

Module S3MetadataInvariant.
Import S3Metadata S3MetadataFacts.

(** Claim C6: in every database reached from the empty one by statements on
    [object], [historical_object] and [s3_metadata] (a statement violating a
    constraint fails and changes nothing), every [s3_metadata] row references
    exactly one existing [object] or exactly one existing [historical_object],
    and every [object] (resp. [historical_object]) is referenced by at most
    one [s3_metadata] row. *)
Theorem s3_metadata_exclusive_one_to_one ss :
  let d := run empty_db ss in
  (forall r, In r (s3_metadata_rows d) ->
     (exists o, object_id r = Some o /\ historical_object_id r = None /\ In o (objects d)) \/
     (exists h, object_id r = None /\ historical_object_id r = Some h /\
                In h (historical_objects d))) /\
  (forall o, length (referencing object_id o (s3_metadata_rows d)) <= 1) /\
  (forall h, length (referencing historical_object_id h (s3_metadata_rows d)) <= 1).
Proof.
  intros d. destruct (run_inv ss empty_db empty_inv) as (H1 & H2 & H3 & H4 & H5).
  fold d in H1, H2, H3, H4, H5.
  split; [|split; intros; apply referencing_le_1; auto].
  intros r Hr. specialize (H1 r Hr). apply num_nonnulls_one in H1.
  destruct H1 as [[o [Ho Hh]]|[h [Ho Hh]]].
  - left. exists o. eauto.
  - right. exists h. eauto.
Qed.

(** A run that inserts an object and a row for it, then a second row for the
    same object and a row referencing both kinds: only the first row is kept. *)
Example s3_metadata_sample :
  s3_metadata_rows
    (run empty_db
       [InsertObject 1; InsertHistoricalObject 2;
        InsertS3Metadata (mk_s3_metadata 10 (Some 1) None);
        InsertS3Metadata (mk_s3_metadata 11 (Some 1) None);
        InsertS3Metadata (mk_s3_metadata 12 (Some 1) (Some 2));
        InsertS3Metadata (mk_s3_metadata 13 None None);
        DeleteObject 1]) =
  [mk_s3_metadata 10 (Some 1) None].
Proof. vm_compute. reflexivity. Qed.

End S3MetadataInvariant.

(* ------------------------------------------------------------------ *)
(** ** Permissions and environment of the ingest function *)

Module IngestFunctionFacts.
Import IngestFunction.

(** Claim C7: for every bucket of the ingest function, its role gets a
    statement on the bucket and the objects in it ([arn:aws:s3:::b] and
    [arn:aws:s3:::b/*]) granting listing, getting objects with and without a
    version, and getting and putting object tagging with and without a
    version. *)
Theorem ingest_bucket_permissions p b :
  In b (ip_buckets p) ->
  exists st,
    In st (ingest_policies p) /\
    resources st = [String.append "arn:aws:s3:::" b;
                    String.append "arn:aws:s3:::" (String.append b "/*")] /\
    incl ["s3:ListBucket"; "s3:ListBucketVersions"; "s3:GetObject"; "s3:GetObjectVersion";
          "s3:GetObjectTagging"; "s3:GetObjectVersionTagging";
          "s3:PutObjectTagging"; "s3:PutObjectVersionTagging"] (actions st).
Proof.
  intros Hb. unfold ingest_policies, formatPoliciesForBucket.
  eexists. split; [apply in_map; exact Hb|]. split; [reflexivity|].
  unfold getObjectActions, getObjectVersionActions, objectTaggingActions.
  simpl. apply incl_refl.
Qed.

Lemma ingest_bucket_permissions_witness :
  exists st,
    In st (ingest_policies (createIngestFunction "db-host" (mk_stateless_props 5432 ["bucket-a"; "bucket-b"]))) /\
    resources st = [String.append "arn:aws:s3:::" "bucket-b";
                    String.append "arn:aws:s3:::" (String.append "bucket-b" "/*")] /\
    incl ["s3:ListBucket"; "s3:ListBucketVersions"; "s3:GetObject"; "s3:GetObjectVersion";
          "s3:GetObjectTagging"; "s3:GetObjectVersionTagging";
          "s3:PutObjectTagging"; "s3:PutObjectVersionTagging"] (actions st).
Proof.
  apply ingest_bucket_permissions. simpl. auto.
Defined.

(** Claim C8: the tag key is the constant
    ['umccr-org:OrcaBusFileManagerIngestId'], and the ingest function the stack
    creates runs with [FILEMANAGER_INGESTER_TAG_NAME] set to it. *)
Theorem ingest_tag_name_configured stack_host cfg :
  FILEMANAGER_INGEST_ID_TAG_NAME = "umccr-org:OrcaBusFileManagerIngestId" /\
  obj_get (ingest_environment (createIngestFunction stack_host cfg))
    "FILEMANAGER_INGESTER_TAG_NAME" = Some FILEMANAGER_INGEST_ID_TAG_NAME.
Proof. split; reflexivity. Qed.

(** The environment of the stack's ingest function. *)
Example ingest_environment_sample :
  ingest_environment (createIngestFunction "db-host" (mk_stateless_props 5432 ["bucket-a"])) =
  [("PGHOST", "db-host"); ("PGPORT", "5432"); ("PGDATABASE", "filemanager");
   ("PGUSER", "filemanager");
   ("RUST_LOG", "info,filemanager_ingest-lambda=trace,filemanager=trace");
   ("FILEMANAGER_INGESTER_TAG_NAME", "umccr-org:OrcaBusFileManagerIngestId")].
Proof. vm_compute. reflexivity. Qed.

(** Props that carry their own [environment] replace the one holding the tag
    name, as the trailing [...props] overrides it. *)
Example ingest_environment_override :
  obj_get (ingest_environment (mk_ingest_function_props "db-host" 5432 None
                                 (Some [("EXTRA", "1")]) []))
    "FILEMANAGER_INGESTER_TAG_NAME" = None.
Proof. vm_compute. reflexivity. Qed.

End IngestFunctionFacts.

(* ------------------------------------------------------------------ *)
(** ** What the event-source rules admit *)

Module EventSourceFacts.
Import EventSource.

Lemma append_slash_cons c s :
  (exists p, String c s = String.append p "/") <->
  (c = "/"%char /\ s = EmptyString) \/ (exists p, s = String.append p "/").
Proof.
  split.
  - intros [[|c' p] E]; simpl in E; inversion E; subst; [left; auto | right; eauto].
  - intros [[-> ->]|[p ->]]; [exists EmptyString | exists (String c p)]; reflexivity.
Qed.

(** [{wildcard: '*/'}] matches exactly the strings ending in ['/']. *)
Lemma wildcard_slash s :
  wildcard_match "*/" s = true <-> exists p, s = String.append p "/".
Proof.
  induction s as [|c s IH].
  - simpl. split; [discriminate|]. intros [[|? ?] E]; discriminate.
  - rewrite append_slash_cons. rewrite <- IH.
    change (wildcard_match "*/" (String c s)) with
      ((Ascii.eqb "/" c && match s with EmptyString => true | _ => false end)
       || wildcard_match "*/" s).
    rewrite orb_true_iff, andb_true_iff, Ascii.eqb_eq.
    destruct s; split; intros H; intuition congruence.
Qed.

Lemma plain_pattern_iff n :
  object_pattern_matches eventSourcePattern n = true <->
  (exists x, object_size n = Some x /\ 0 < x) \/ ~ (exists p, object_key n = String.append p "/").
Proof.
  unfold object_pattern_matches, eventSourcePattern. cbn [existsb forallb fst snd].
  rewrite !orb_false_r, !andb_true_r, orb_true_iff.
  unfold matcher_matches, get_field. cbn [forallb]. rewrite andb_true_r, negb_true_iff.
  rewrite <- wildcard_slash, not_true_iff_false.
  destruct (object_size n) as [x|]; simpl.
  - rewrite Nat.ltb_lt. split; intros [H|H]; eauto.
    + left. destruct H as [y [E H]]. inversion E. subst. auto.
  - split; intros [H|H]; auto; [discriminate | destruct H as [? [? ?]]; discriminate].
Qed.

(** For a non-cache bucket, admission is decided by its rule alone. *)
Lemma admitted_plain_bucket cache buckets n :
  In (bucket_name n) buckets -> ~ In (bucket_name n) cache ->
  admitted cache buckets n = true <->
  rule_matches
    (mk_rule (bucket_name n)
       ["Object Created"; "Object Deleted"; "Object Restore Completed";
        "Object Restore Expired"; "Object Storage Class Changed";
        "Object Access Tier Changed"] eventSourcePattern) n = true.
Proof.
  intros Hb Hc. unfold admitted, getEventSourceConstructProps.
  rewrite existsb_app, orb_true_iff, !existsb_exists. split.
  - intros [[r [Hr Hm]]|[r [Hr Hm]]]; apply in_map_iff in Hr as [b [<- Hin]].
    + exfalso. unfold rule_matches in Hm. simpl in Hm.
      repeat rewrite andb_true_iff in Hm. destruct Hm as [[[_ _] Hbn] _].
      apply String.eqb_eq in Hbn. subst. contradiction.
    + pose proof Hm as Hm'. unfold rule_matches in Hm'. simpl in Hm'.
      repeat rewrite andb_true_iff in Hm'. destruct Hm' as [[[_ _] Hbn] _].
      apply String.eqb_eq in Hbn. rewrite Hbn. exact Hm.
  - intros Hm. right. eexists. split; [apply in_map; exact Hb | exact Hm].
Qed.

End EventSourceFacts.

(* ------------------------------------------------------------------ *)
(** ** Admission of notifications for non-cache buckets *)

Module EventSourceAdmission.
Import EventSource EventSourceFacts.

(** Claim C10, refuted as stated: an ['Object Tags Added'] notification for a
    non-cache bucket, of size 1 and key ['a.txt'], satisfies the size/key
    condition but is not admitted, as its type is not one of the rule's event
    types. *)
Lemma untracked_event_type_counterexample :
  let n := mk_notification "aws.s3" "Object Tags Added" "bucket-a" "a.txt" (Some 1) in
  ((exists x, object_size n = Some x /\ 0 < x) \/
   ~ (exists p, object_key n = String.append p "/")) /\
  admitted [] ["bucket-a"] n = false.
Proof.
  intros n. split.
  - left. exists 1. split; [reflexivity | lia].
  - vm_compute. reflexivity.
Qed.

(** Claim C10 (amended): a notification for a non-cache bucket is admitted
    iff it is an S3 notification ([source = 'aws.s3']) whose detail-type is
    one of the six subscribed event types and the object's size is present
    and greater than 0 or its key does not end with ['/']; so notifications
    of other types (e.g. ['Object Tags Added']) are never admitted, and a
    zero-size or size-less key ending in ['/'] is never admitted. *)
Theorem admitted_subscribed_iff cache buckets n :
  In (bucket_name n) buckets -> ~ In (bucket_name n) cache ->
  (admitted cache buckets n = true <->
   source n = "aws.s3" /\
   In (detail_type n)
     ["Object Created"; "Object Deleted"; "Object Restore Completed";
      "Object Restore Expired"; "Object Storage Class Changed";
      "Object Access Tier Changed"] /\
   ((exists x, object_size n = Some x /\ 0 < x) \/
    ~ (exists p, object_key n = String.append p "/"))).
Proof.
  intros Hb Hc. rewrite (admitted_plain_bucket cache buckets n Hb Hc).
  rewrite <- plain_pattern_iff. unfold rule_matches.
  cbn [eventTypes rule_bucket patterns].
  rewrite String.eqb_refl, andb_true_r, !andb_true_iff, String.eqb_eq, existsb_exists.
  split.
  - intros [[Hs (x & Hx & E)] Hp]. apply String.eqb_eq in E. subst x. auto.
  - intros (Hs & Ht & Hp). split; [split; [exact Hs|]|exact Hp].
    exists (detail_type n). split; [exact Ht | apply String.eqb_refl].
Qed.

Lemma admitted_subscribed_iff_witness :
  let n := mk_notification "aws.s3" "Object Tags Added" "bucket-a" "a.txt" (Some 1) in
  In (bucket_name n) ["bucket-a"] /\ ~ In (bucket_name n) ["cache-bucket"] /\
  (admitted ["cache-bucket"] ["bucket-a"] n = true <->
   source n = "aws.s3" /\
   In (detail_type n)
     ["Object Created"; "Object Deleted"; "Object Restore Completed";
      "Object Restore Expired"; "Object Storage Class Changed";
      "Object Access Tier Changed"] /\
   ((exists x, object_size n = Some x /\ 0 < x) \/
    ~ (exists p, object_key n = String.append p "/"))).
Proof.
  intros n.
  assert (Hb : In (bucket_name n) ["bucket-a"]) by (simpl; auto).
  assert (Hc : ~ In (bucket_name n) ["cache-bucket"])
    by (simpl; intros [H|[]]; discriminate).
  split; [exact Hb|]. split; [exact Hc|].
  exact (admitted_subscribed_iff ["cache-bucket"] ["bucket-a"] n Hb Hc).
Defined.

End EventSourceAdmission.

(* ------------------------------------------------------------------ *)
(** ** Inventory records and the [s3_event] table *)

Module InventoryRecords.
Import ResetCurrentState S3Event.

(** Claim C5, refuted as stated: the record read from an inventory row has a
    NULL sequencer, and inserting it into [s3_event] is rejected even when the
    table is empty. *)
Lemma inventory_record_rejected_counterexample :
  let e := inventory_record 1 100 (mk_inventory_row "bucket-a" "a.txt" None (Some 1) None false) in
  ev_event_type e = Some Crawl /\ ev_sequencer e = None /\ insert_s3_event [] e = None.
Proof. vm_compute. auto. Qed.

(** Claim C5 (amended): every record the inventory reader produces has type
    [Crawl] or [CrawlRestored], the file's last-modified time and a NULL
    sequencer, and the [not null] constraint on [s3_event.sequencer] rejects
    its insert into the event log, whatever the table holds. *)
Theorem inventory_record_not_persistable id last_modified r tbl :
  let e := inventory_record id last_modified r in
  (ev_event_type e = Some Crawl \/ ev_event_type e = Some CrawlRestored) /\
  ev_event_time e = Some last_modified /\
  ev_sequencer e = None /\
  insert_s3_event tbl e = None.
Proof.
  intros e. split; [|split; [reflexivity|split; [reflexivity|]]].
  - unfold e, inventory_record. simpl. destruct (ir_restored r); auto.
  - unfold insert_s3_event, e, inventory_record. simpl. rewrite !andb_false_r. reflexivity.
Qed.

End InventoryRecords.

(* ------------------------------------------------------------------ *)
(** ** The crawl keeps lineage *)

Module CrawlerFacts.
Import Crawler.

Lemma opt_str_eqb_eq a b : opt_str_eqb a b = true <-> a = b.
Proof.
  destruct a, b; simpl; try rewrite String.eqb_eq; split; congruence.
Qed.

Lemma same_object_iff l o : same_object l o = true <-> listed_id3 l = object_id3 o.
Proof.
  unfold same_object, listed_id3, object_id3.
  rewrite !andb_true_iff, !String.eqb_eq, opt_str_eqb_eq.
  split; [intros [[-> ->] ->]; auto | intros E; inversion E; auto].
Qed.

(** [k] is the identity of a row of [st]. *)
Definition known (st : crawl_state) (k : string * string * option string) : Prop :=
  exists o, In o (tracked_objects st) /\ object_id3 o = k.

Lemma crawl_record_keeps st l o :
  In o (tracked_objects st) ->
  exists o', In o' (tracked_objects (crawl_record st l)) /\
             object_id3 o' = object_id3 o /\ lineage_id o' = lineage_id o.
Proof.
  intros Ho. unfold crawl_record.
  destruct (existsb (same_object l) (tracked_objects st)).
  - simpl. eexists. split; [apply in_map; exact Ho|].
    destruct (same_object l o); split; reflexivity.
  - destruct (l_tag l); simpl; exists o; auto.
Qed.

Lemma crawl_record_origin st l o' :
  In o' (tracked_objects (crawl_record st l)) ->
  (exists o, In o (tracked_objects st) /\
             object_id3 o = object_id3 o' /\ lineage_id o = lineage_id o') \/
  (listed_id3 l = object_id3 o' /\ ~ known st (object_id3 o')).
Proof.
  unfold crawl_record. destruct (existsb (same_object l) (tracked_objects st)) eqn:Ex.
  - simpl. intros H. apply in_map_iff in H as [o [<- Ho]]. left. exists o.
    destruct (same_object l o); auto.
  - assert (Hn : forall o, In o (tracked_objects st) -> listed_id3 l <> object_id3 o).
    { intros o Ho E. apply same_object_iff in E.
      assert (existsb (same_object l) (tracked_objects st) = true)
        by (apply existsb_exists; eauto). congruence. }
    destruct (l_tag l); simpl; intros [<-|H]; eauto;
      right; split; auto; intros [o [Ho E]]; exact (Hn o Ho (eq_sym E)).
Qed.

Lemma crawl_cons st l ls : crawl st (l :: ls) = crawl (crawl_record st l) ls.
Proof. reflexivity. Qed.

Lemma crawl_keeps st listing o :
  In o (tracked_objects st) ->
  exists o', In o' (tracked_objects (crawl st listing)) /\
             object_id3 o' = object_id3 o /\ lineage_id o' = lineage_id o.
Proof.
  revert st o. induction listing as [|l ls IH]; intros st o Ho.
  - exists o. auto.
  - rewrite crawl_cons. destruct (crawl_record_keeps st l o Ho) as [o1 [H1 [E1 L1]]].
    destruct (IH _ _ H1) as [o2 [H2 [E2 L2]]]. exists o2. split; [auto|]. split; congruence.
Qed.

Lemma crawl_origin st listing o' :
  In o' (tracked_objects (crawl st listing)) ->
  (exists o, In o (tracked_objects st) /\
             object_id3 o = object_id3 o' /\ lineage_id o = lineage_id o') \/
  (exists l, In l listing /\ listed_id3 l = object_id3 o' /\ ~ known st (object_id3 o')).
Proof.
  revert st o'. induction listing as [|l ls IH]; intros st o' Ho.
  - left. exists o'. auto.
  - rewrite crawl_cons in Ho. destruct (IH _ _ Ho) as [[o1 [H1 [E1 L1]]]|[l' [Hl [E Hk]]]].
    + destruct (crawl_record_origin st l o1 H1) as [[o [H [E L]]]|[E Hk]].
      * left. exists o. split; [auto|]. split; congruence.
      * right. exists l. split; [left; auto|]. rewrite <- E1. auto.
    + right. exists l'. split; [right; auto|]. split; [auto|].
      intros [o [H E']]. apply Hk. destruct (crawl_record_keeps st l o H) as [o1 [H1 [E1 _]]].
      exists o1. split; congruence.
Qed.

End CrawlerFacts.

(* ------------------------------------------------------------------ *)
(** ** Lineage of known objects under a crawl *)

Module CrawlLineage.
Import Crawler CrawlerFacts.

(** Claim C9: when the objects known before a crawl have distinct
    [(bucket, key, version_id)], then after crawling any listing every known
    object is still present with the same [lineage_id], every row for a known
    object's identity carries that object's [lineage_id], and every other row
    is a new one for a listed object that was not known before. *)
Theorem crawl_keeps_lineage st listing :
  NoDup (map object_id3 (tracked_objects st)) ->
  let after := tracked_objects (crawl st listing) in
  (forall o, In o (tracked_objects st) ->
     exists o', In o' after /\ object_id3 o' = object_id3 o /\ lineage_id o' = lineage_id o) /\
  (forall o o', In o (tracked_objects st) -> In o' after ->
     object_id3 o' = object_id3 o -> lineage_id o' = lineage_id o) /\
  (forall o', In o' after -> ~ known st (object_id3 o') ->
     exists l, In l listing /\ listed_id3 l = object_id3 o').
Proof.
  intros Hnd after. split; [|split].
  - intros o Ho. apply crawl_keeps. exact Ho.
  - intros o o' Ho Ho' E.
    destruct (crawl_origin st listing o' Ho') as [[o1 [H1 [E1 L1]]]|[l [_ [_ Hk]]]].
    + rewrite (ProjectorFacts.NoDup_map_in object_id3 _ o1 o Hnd H1 Ho (eq_trans E1 E)) in L1.
      auto.
    + exfalso. apply Hk. exists o. auto.
  - intros o' Ho' Hk.
    destruct (crawl_origin st listing o' Ho') as [[o1 [H1 [E1 _]]]|[l [Hl [E _]]]].
    + exfalso. apply Hk. exists o1. auto.
    + exists l. auto.
Qed.

Definition sample_state : crawl_state :=
  mk_crawl_state [mk_tracked "bucket-a" "a.txt" None 7 None None None] 100.

Definition sample_listing : list listed :=
  [mk_listed "bucket-a" "a.txt" None (Some 5) None (Some "Standard") (Some 9);
   mk_listed "bucket-a" "b.txt" None (Some 3) None None None].

Lemma crawl_keeps_lineage_witness :
  NoDup (map object_id3 (tracked_objects sample_state)) /\
  let after := tracked_objects (crawl sample_state sample_listing) in
  (forall o, In o (tracked_objects sample_state) ->
     exists o', In o' after /\ object_id3 o' = object_id3 o /\ lineage_id o' = lineage_id o) /\
  (forall o o', In o (tracked_objects sample_state) -> In o' after ->
     object_id3 o' = object_id3 o -> lineage_id o' = lineage_id o) /\
  (forall o', In o' after -> ~ known sample_state (object_id3 o') ->
     exists l, In l sample_listing /\ listed_id3 l = object_id3 o').
Proof.
  assert (H : NoDup (map object_id3 (tracked_objects sample_state)))
    by (simpl; constructor; [intros []|constructor]).
  split; [exact H|]. exact (crawl_keeps_lineage sample_state sample_listing H).
Defined.

(** The crawl of the sample: the known object keeps lineage 7 (the tag 9 on
    it is ignored) and gets its missing size and storage class; the unknown
    one gets the fresh lineage 100. *)
Example crawl_sample :
  tracked_objects (crawl sample_state sample_listing) =
  [mk_tracked "bucket-a" "b.txt" None 100 (Some 3) None None;
   mk_tracked "bucket-a" "a.txt" None 7 (Some 5) None (Some "Standard")].
Proof. vm_compute. reflexivity. Qed.

End CrawlLineage.

(* ------------------------------------------------------------------ *)
(** ** The lookup of stored objects: what it returns and in what order *)

Module SelectExistingFacts.
Import ResetCurrentState SelectExisting ProjectorFacts.

Lemma insert_by_sequencer_perm (x : s3_object) (l : list s3_object) :
  Permutation (insert_by_sequencer x l) (x :: l).
Proof.
  induction l as [|y l IH]; simpl; [reflexivity|].
  destruct (seq_before (sequencer x) (sequencer y)); [reflexivity|].
  rewrite IH. apply perm_swap.
Qed.

Lemma order_by_sequencer_perm (l : list s3_object) :
  Permutation (order_by_sequencer l) l.
Proof.
  induction l as [|x l IH]; simpl; [reflexivity|].
  rewrite insert_by_sequencer_perm. now apply perm_skip.
Qed.

Lemma in_select_group inp tbl o :
  In o (select_group inp tbl) <-> In o tbl /\ matches_input inp o = true.
Proof.
  unfold select_group. rewrite <- filter_In. split; intros H.
  - eapply Permutation_in; [apply order_by_sequencer_perm|exact H].
  - eapply Permutation_in; [symmetry; apply order_by_sequencer_perm|exact H].
Qed.

Lemma sql_text_eq_some a y : sql_text_eq a (Some y) = true <-> a = Some y.
Proof.
  destruct a as [x|]; simpl; split; try congruence.
  - intros H. apply String.eqb_eq in H. now subst.
  - intros H. injection H as ->. apply String.eqb_refl.
Qed.

Lemma sql_text_eq_iff a b : sql_text_eq a b = true <-> exists v, a = Some v /\ b = Some v.
Proof.
  destruct b as [y|].
  - rewrite sql_text_eq_some. split; [eauto|]. intros (v & -> & H). now injection H as ->.
  - destruct a; simpl; split; [discriminate|intros (v & _ & H); discriminate|
      discriminate|intros (v & _ & H); discriminate].
Qed.

(** The query returns exactly the stored rows whose bucket, key and version
    id are all given at one position of the three input arrays; a position
    where an array has no value, and a stored row with a NULL version id,
    give no row. *)
Theorem select_existing_rows (bs ks vs : list string) (tbl : list s3_object)
    (o : s3_object) :
  In o (select_existing bs ks vs tbl) <->
  In o tbl /\ exists i v, nth_error bs i = Some (bucket o) /\
    nth_error ks i = Some (key o) /\ nth_error vs i = Some v /\
    version_id o = Some v.
Proof.
  unfold select_existing. rewrite in_flat_map. split.
  - intros (inp & Hin & Hg). apply in_select_group in Hg as [Ht Hm].
    unfold unnest3 in Hin. apply in_map_iff in Hin as (i & <- & _).
    simpl in Hm. apply andb_true_iff in Hm as [Hm Hv].
    apply andb_true_iff in Hm as [Hb Hk].
    rewrite sql_text_eq_some in Hb, Hk.
    apply sql_text_eq_iff in Hv as (v & Hv1 & Hv2).
    split; [exact Ht|]. exists i, v. auto.
  - intros (Ht & i & v & Hb & Hk & Hv & Hov).
    exists (nth_error bs i, nth_error ks i, nth_error vs i). split.
    + unfold unnest3. apply in_map_iff. exists i. split; [reflexivity|].
      apply in_seq. assert (i < length bs) by (apply nth_error_Some; congruence).
      lia.
    + apply in_select_group. split; [exact Ht|]. simpl.
      rewrite Hb, Hk, Hv, Hov. simpl. now rewrite !String.eqb_refl.
Qed.


End SelectExistingFacts.

(* ------------------------------------------------------------------ *)
(** ** Running the reset query again, and what it leaves alone *)

Module ResetCurrentStateFacts.
Import ResetCurrentState ProjectorFacts.

Lemma mapi_from_map_ext {A B C} (f : nat -> B -> C) (f' : nat -> A -> C)
    (g : A -> B) n l :
  (forall j a, j < n + length l -> f j (g a) = f' j a) ->
  mapi_from f n (map g l) = mapi_from f' n l.
Proof.
  revert n; induction l as [|a l IH]; intros n E; simpl; [reflexivity|].
  rewrite E by (simpl; lia). f_equal. apply IH.
  intros j x Hj. apply E. simpl in *. lia.
Qed.

Lemma set_current_state_fields o v :
  s3_object_id (set_current_state o v) = s3_object_id o /\
  bucket (set_current_state o v) = bucket o /\
  key (set_current_state o v) = key o /\
  version_id (set_current_state o v) = version_id o /\
  sequencer (set_current_state o v) = sequencer o /\
  event_type_of (set_current_state o v) = event_type_of o /\
  is_delete_marker (set_current_state o v) = is_delete_marker o.
Proof. repeat split. Qed.

Section Frame.
Variable g : s3_object -> s3_object.
Hypothesis g_frame : forall o, g o = set_current_state o (is_current_state (g o)).

Lemma lateral_frame b k tbl : lateral b k (map g tbl) = lateral b k tbl.
Proof.
  unfold lateral, mapi. rewrite filter_map_comm.
  rewrite (filter_ext' (fun a => String.eqb b (bucket (g a)) && String.eqb k (key (g a)))
            (fun o => String.eqb b (bucket o) && String.eqb k (key o)))
    by (intros a; rewrite g_frame; reflexivity).
  apply mapi_from_map_ext. intros j a Hj. simpl in Hj.
  rewrite g_frame. cbn [s3_object_id is_delete_marker sequencer event_type_of
    set_current_state].
  f_equal. f_equal.
  apply row_number_is_1_map; [| |lia].
  - intros x y. unfold same_version. rewrite (g_frame x), (g_frame y). reflexivity.
  - intros x. rewrite g_frame. reflexivity.
Qed.

Lemma current_versions_frame input tbl :
  current_versions input (map g tbl) = current_versions input tbl.
Proof.
  unfold current_versions. apply flat_map_ext. intros bk. apply lateral_frame.
Qed.

End Frame.

Lemma update_row_frame choose cs o :
  update_row choose cs o = set_current_state o (is_current_state (update_row choose cs o)).
Proof.
  unfold update_row.
  destruct (map snd (filter (fun p => Nat.eqb (fst p) (s3_object_id o)) cs)).
  - destruct o; reflexivity.
  - reflexivity.
Qed.

Lemma update_row_idem choose cs o :
  update_row choose cs (update_row choose cs o) = update_row choose cs o.
Proof.
  remember (update_row choose cs o) as u eqn:Eu.
  unfold update_row in Eu.
  destruct (map snd (filter (fun p => Nat.eqb (fst p) (s3_object_id o)) cs))
    as [|w vs] eqn:E.
  - subst u. unfold update_row. rewrite E. reflexivity.
  - subst u. unfold update_row at 1. cbn [s3_object_id]. rewrite E. reflexivity.
Qed.

(** In the model, the values the query computes do not read
    [is_current_state], the one column it writes, and the rows keep their
    places. *)
Lemma reset_current_state_twice (choose : list bool -> bool)
    (input : list (string * string)) (tbl : list s3_object) :
  reset_current_state choose input (reset_current_state choose input tbl) =
  reset_current_state choose input tbl.
Proof.
  set (cs := current_state (current_versions input tbl)).
  assert (Hcv : current_versions input (update_from choose cs tbl) =
                current_versions input tbl)
    by (apply current_versions_frame; apply update_row_frame).
  unfold reset_current_state at 1 2. fold cs. rewrite Hcv. fold cs.
  unfold update_from. rewrite map_map. apply map_ext. intros o.
  apply update_row_idem.
Qed.

Lemma hd_false_in : forall l, l <> [] -> In (hd false l) l.
Proof. intros [|b l] H; [contradiction | left; reflexivity]. Qed.

(** Running the query a second time with the same input changes nothing,
    when its result does not depend on choices PostgreSQL leaves open: the
    input pairs are distinct (so no row joins two [current_state] rows, and
    the choice of [update ... from] is among one value), the row ids are
    distinct, and no two rows of one bucket and key share a sequencer (at
    most one is NULL), so no [row_number()] window has tied rows. *)
Theorem reset_current_state_idempotent (choose : list bool -> bool)
    (input : list (string * string)) (tbl : list s3_object) :
  (forall l, l <> [] -> In (choose l) l) ->
  NoDup input -> NoDup (map s3_object_id tbl) ->
  (forall a b, In a tbl -> In b tbl -> bucket a = bucket b -> key a = key b ->
     sequencer a = sequencer b -> a = b) ->
  reset_current_state choose input (reset_current_state choose input tbl) =
  reset_current_state choose input tbl.
Proof. intros _ _ _ _. apply reset_current_state_twice. Qed.

Lemma reset_current_state_idempotent_witness :
  let tbl := [mk_s3_object 1 "b" "k" (Some "v1") (Some "01") Created false false;
              mk_s3_object 2 "b" "k" (Some "v2") (Some "02") Created false true;
              mk_s3_object 3 "b" "k2" None None Deleted true false] in
  NoDup [("b", "k"); ("b", "k2")] /\ NoDup (map s3_object_id tbl) /\
  (forall a b, In a tbl -> In b tbl -> bucket a = bucket b -> key a = key b ->
     sequencer a = sequencer b -> a = b) /\
  reset_current_state (hd false) [("b", "k"); ("b", "k2")]
    (reset_current_state (hd false) [("b", "k"); ("b", "k2")] tbl) =
  reset_current_state (hd false) [("b", "k"); ("b", "k2")] tbl.
Proof.
  intros tbl.
  assert (H1 : NoDup [("b", "k"); ("b", "k2")])
    by (repeat constructor; simpl; intuition discriminate).
  assert (H2 : NoDup (map s3_object_id tbl))
    by (repeat constructor; simpl; intuition discriminate).
  assert (H3 : forall a b, In a tbl -> In b tbl -> bucket a = bucket b ->
                 key a = key b -> sequencer a = sequencer b -> a = b).
  { simpl. intros a b [<-|[<-|[<-|[]]]] [<-|[<-|[<-|[]]]]; simpl;
      intros Eb Ek Es; first [reflexivity | discriminate]. }
  split; [exact H1|]. split; [exact H2|]. split; [exact H3|].
  exact (reset_current_state_idempotent (hd false) [("b", "k"); ("b", "k2")] tbl
           hd_false_in H1 H2 H3).
Defined.

(** With no [(bucket, key)] pair in the input the query changes no row. *)
Theorem reset_current_state_empty_input (choose : list bool -> bool)
    (tbl : list s3_object) :
  reset_current_state choose [] tbl = tbl.
Proof.
  unfold reset_current_state, update_from. simpl.
  rewrite <- (map_id tbl) at 2. apply map_ext. intros o. reflexivity.
Qed.

End ResetCurrentStateFacts.

(* ------------------------------------------------------------------ *)
(** ** The cache-bucket pattern and admission for any bucket lists *)

Module EventSourceRules.
Import EventSource EventSourceFacts.

Lemma wildcard_star_nil p :
  wildcard_match (String "*" p) EmptyString = wildcard_match p EmptyString || false.
Proof. reflexivity. Qed.

Lemma wildcard_star_cons p c s :
  wildcard_match (String "*" p) (String c s) =
  wildcard_match p (String c s) || wildcard_match (String "*" p) s.
Proof. reflexivity. Qed.

(** [*] followed by [p] matches a string iff [p] matches one of its suffixes. *)
Lemma wildcard_star p s :
  wildcard_match (String "*" p) s = true <->
  exists a b, s = String.append a b /\ wildcard_match p b = true.
Proof.
  induction s as [|c s IH].
  - rewrite wildcard_star_nil, orb_false_r. split.
    + intros H. exists EmptyString, EmptyString. auto.
    + intros ([|? ?] & b & E & H); [simpl in E; subst; exact H | discriminate].
  - rewrite wildcard_star_cons, orb_true_iff, IH. split.
    + intros [H|(a & b & E & H)].
      * exists EmptyString, (String c s). auto.
      * exists (String c a), b. subst. auto.
    + intros ([|d a] & b & E & H); simpl in E.
      * left. subst. exact H.
      * right. inversion E. subst. eauto.
Qed.

Lemma wildcard_lit c p s :
  c <> "*"%char ->
  wildcard_match (String c p) s =
  match s with
  | EmptyString => false
  | String d s' => Ascii.eqb c d && wildcard_match p s'
  end.
Proof.
  intros Hc. cbn [wildcard_match].
  destruct (Ascii.eqb c (Ascii.ascii_of_nat 42)) eqn:E; [|reflexivity].
  apply Ascii.eqb_eq in E. exfalso. apply Hc. rewrite E. reflexivity.
Qed.

(** A prefix without [*] is matched literally. *)
Lemma wildcard_lit_prefix lit p s :
  (forall c, In c (list_ascii_of_string lit) -> c <> "*"%char) ->
  wildcard_match (String.append lit p) s = true <->
  exists b, s = String.append lit b /\ wildcard_match p b = true.
Proof.
  revert s; induction lit as [|c lit IH]; intros s Hl; cbn [String.append].
  - split; [eauto|]. intros (b & -> & H). exact H.
  - rewrite wildcard_lit by (apply Hl; left; reflexivity).
    destruct s as [|d s].
    + split; [discriminate|]. intros (b & E & _). discriminate.
    + rewrite andb_true_iff, Ascii.eqb_eq, IH by (intros; apply Hl; right; auto).
      split.
      * intros [-> (b & -> & H)]. eauto.
      * intros (b & E & H). inversion E. subst. eauto.
Qed.

Lemma wildcard_empty s : wildcard_match EmptyString s = true <-> s = EmptyString.
Proof. destruct s; simpl; split; congruence. Qed.

Lemma wildcard_star_all s : wildcard_match "*" s = true.
Proof.
  apply wildcard_star. exists s, EmptyString. split; [|reflexivity].
  induction s; simpl; congruence.
Qed.

(** [{wildcard: 'byob-icav2/*/cache/*'}] matches exactly the keys
    [byob-icav2/<a>/cache/<b>]. *)
Lemma wildcard_cache_key s :
  wildcard_match "byob-icav2/*/cache/*" s = true <->
  exists a b, s = String.append "byob-icav2/" (String.append a (String.append "/cache/" b)).
Proof.
  change "byob-icav2/*/cache/*" with
    (String.append "byob-icav2/" (String "*" (String.append "/cache/" "*"))).
  rewrite wildcard_lit_prefix by (simpl; intros c Hc;
    repeat (destruct Hc as [<-|Hc]; [discriminate|]); contradiction).
  split.
  - intros (b1 & -> & H). apply wildcard_star in H as (a & b2 & -> & H).
    apply wildcard_lit_prefix in H as (b & -> & _);
      [|simpl; intros c Hc; repeat (destruct Hc as [<-|Hc]; [discriminate|]); contradiction].
    eauto.
  - intros (a & b & ->). eexists. split; [reflexivity|].
    apply wildcard_star. exists a, (String.append "/cache/" b). split; [reflexivity|].
    apply wildcard_lit_prefix;
      [simpl; intros c Hc; repeat (destruct Hc as [<-|Hc]; [discriminate|]); contradiction|].
    exists b. split; [reflexivity | apply wildcard_star_all].
Qed.

Lemma rule_matches_iff b ets pat n :
  rule_matches (mk_rule b ets pat) n = true <->
  source n = "aws.s3" /\ In (detail_type n) ets /\ bucket_name n = b /\
  object_pattern_matches pat n = true.
Proof.
  unfold rule_matches. cbn [eventTypes rule_bucket patterns].
  rewrite !andb_true_iff, !String.eqb_eq, existsb_exists. split.
  - intros [[[Hs (x & Hx & E)] Hb] Hp]. apply String.eqb_eq in E. subst. auto.
  - intros (Hs & Ht & Hb & Hp). repeat split; auto.
    exists (detail_type n). split; [exact Ht | apply String.eqb_refl].
Qed.

(** The cache-bucket pattern, as the comment above it in [constants.ts]
    says: NOT key in cache AND (size > 0 OR NOT key ends with ['/']), the
    cache keys being [byob-icav2/<a>/cache/<b>]. *)
Lemma cache_pattern_iff_spec n :
  object_pattern_matches eventSourcePatternCache n = true <->
  ~ (exists a b, object_key n =
       String.append "byob-icav2/" (String.append a (String.append "/cache/" b))) /\
  ((exists x, object_size n = Some x /\ 0 < x) \/
   ~ (exists p, object_key n = String.append p "/")).
Proof.
  rewrite <- wildcard_cache_key, <- wildcard_slash.
  unfold object_pattern_matches, eventSourcePatternCache. cbn [existsb forallb fst snd].
  unfold matcher_matches, get_field. cbn [forallb existsb].
  rewrite !orb_false_r, !andb_true_r.
  destruct (wildcard_match "byob-icav2/*/cache/*" (object_key n));
  destruct (wildcard_match "*/" (object_key n));
  destruct (object_size n) as [x|]; simpl.
  all: rewrite ?orb_false_r, ?orb_true_r, ?Nat.ltb_lt.
  all: split; [intros H | intros [H1 [(y & E & Hy)|H2]]]; try discriminate;
    try congruence.
  all: try (injection E as <-; exact Hy).
  all: split; [discriminate|]; eauto.
Qed.

(** The cache-bucket pattern, as the comment above it in [constants.ts]
    says: NOT key in cache AND (size > 0 OR NOT key ends with ['/']), the
    cache keys being [byob-icav2/<a>/cache/<b>]. *)
Theorem cache_pattern_iff n :
  object_pattern_matches eventSourcePatternCache n = true <->
  ~ (exists a b, object_key n =
       String.append "byob-icav2/" (String.append a (String.append "/cache/" b))) /\
  ((exists x, object_size n = Some x /\ 0 < x) \/
   ~ (exists p, object_key n = String.append p "/")).
Proof. apply cache_pattern_iff_spec. Qed.

(** Whatever the two bucket lists, a notification is admitted iff it comes
    from S3, has one of the six subscribed event types, and either its bucket
    is a cache bucket and the cache pattern matches, or its bucket is a plain
    bucket and the plain pattern matches. *)
Lemma admitted_iff_spec cache buckets n :
  admitted cache buckets n = true <->
  source n = "aws.s3" /\
  In (detail_type n)
    ["Object Created"; "Object Deleted"; "Object Restore Completed";
     "Object Restore Expired"; "Object Storage Class Changed";
     "Object Access Tier Changed"] /\
  ((In (bucket_name n) cache /\
    object_pattern_matches eventSourcePatternCache n = true) \/
   (In (bucket_name n) buckets /\
    object_pattern_matches eventSourcePattern n = true)).
Proof.
  unfold admitted, getEventSourceConstructProps.
  rewrite existsb_app, orb_true_iff, !existsb_exists. split.
  - intros [(r & Hr & Hm)|(r & Hr & Hm)]; apply in_map_iff in Hr as (b & <- & Hb);
      apply rule_matches_iff in Hm as (Hs & Ht & -> & Hp); auto.
  - intros (Hs & Ht & [[Hb Hp]|[Hb Hp]]); [left|right];
      (eexists; split; [apply in_map; exact Hb | apply rule_matches_iff; auto]).
Qed.

(** Whatever the two bucket lists, a notification is admitted iff it comes
    from S3, has one of the six subscribed event types, and either its bucket
    is a cache bucket and the cache pattern matches, or its bucket is a plain
    bucket and the plain pattern matches. *)
Theorem admitted_iff cache buckets n :
  admitted cache buckets n = true <->
  source n = "aws.s3" /\
  In (detail_type n)
    ["Object Created"; "Object Deleted"; "Object Restore Completed";
     "Object Restore Expired"; "Object Storage Class Changed";
     "Object Access Tier Changed"] /\
  ((In (bucket_name n) cache /\
    object_pattern_matches eventSourcePatternCache n = true) \/
   (In (bucket_name n) buckets /\
    object_pattern_matches eventSourcePattern n = true)).
Proof. apply admitted_iff_spec. Qed.

(** A key ending in ['/'] whose size is absent or 0 is never admitted, for
    any cache and plain bucket lists. *)
Theorem directory_marker_never_admitted cache buckets n p :
  object_key n = String.append p "/" ->
  (forall x, object_size n = Some x -> x = 0) ->
  admitted cache buckets n = false.
Proof.
  intros Hk Hz. apply not_true_iff_false. rewrite admitted_iff_spec.
  intros (_ & _ & [[_ Hp]|[_ Hp]]).
  - apply cache_pattern_iff_spec in Hp as [_ [(x & Hx & Hpos)|Hn]].
    + apply Hz in Hx. lia.
    + apply Hn. eauto.
  - apply plain_pattern_iff in Hp as [(x & Hx & Hpos)|Hn].
    + apply Hz in Hx. lia.
    + apply Hn. eauto.
Qed.

(** A key [byob-icav2/<a>/cache/<b>] is never admitted for a bucket that is
    not also in the plain bucket list. *)
Theorem cache_key_never_admitted cache buckets n a b :
  ~ In (bucket_name n) buckets ->
  object_key n =
    String.append "byob-icav2/" (String.append a (String.append "/cache/" b)) ->
  admitted cache buckets n = false.
Proof.
  intros Hb Hk. apply not_true_iff_false. rewrite admitted_iff_spec.
  intros (_ & _ & [[_ Hp]|[Hin _]]).
  - apply cache_pattern_iff_spec in Hp as [Hn _]. apply Hn. eauto.
  - contradiction.
Qed.

Lemma directory_marker_never_admitted_witness :
  let n := mk_notification "aws.s3" "Object Created" "bucket-a" "dir/" (Some 0) in
  object_key n = String.append "dir" "/" /\
  (forall x, object_size n = Some x -> x = 0) /\
  admitted ["cache-bucket"] ["bucket-a"] n = false.
Proof.
  intros n.
  assert (Hk : object_key n = String.append "dir" "/") by reflexivity.
  assert (Hz : forall x, object_size n = Some x -> x = 0)
    by (intros x E; injection E as <-; reflexivity).
  split; [exact Hk|]. split; [exact Hz|].
  exact (directory_marker_never_admitted ["cache-bucket"] ["bucket-a"] n "dir" Hk Hz).
Defined.

Lemma cache_key_never_admitted_witness :
  let n := mk_notification "aws.s3" "Object Created" "cache-bucket"
             "byob-icav2/proj/cache/x.bam" (Some 10) in
  ~ In (bucket_name n) ["bucket-a"] /\
  object_key n =
    String.append "byob-icav2/" (String.append "proj" (String.append "/cache/" "x.bam")) /\
  admitted ["cache-bucket"] ["bucket-a"] n = false.
Proof.
  intros n.
  assert (Hb : ~ In (bucket_name n) ["bucket-a"])
    by (simpl; intros [H|[]]; discriminate).
  assert (Hk : object_key n =
    String.append "byob-icav2/" (String.append "proj" (String.append "/cache/" "x.bam")))
    by reflexivity.
  split; [exact Hb|]. split; [exact Hk|].
  exact (cache_key_never_admitted ["cache-bucket"] ["bucket-a"] n "proj" "x.bam" Hb Hk).
Defined.

End EventSourceRules.

(* ------------------------------------------------------------------ *)
(** ** Function environments and the presign access key *)

Module FunctionEnvironmentFacts.
Import IngestFunction StatefulProps.

Lemma obj_get_set o k v k' :
  obj_get (obj_set o k v) k' = if String.eqb k' k then Some v else obj_get o k'.
Proof.
  induction o as [|[k0 v0] o IH]; simpl; [reflexivity|].
  destruct (String.eqb_spec k k0) as [->|Hk]; simpl.
  - destruct (String.eqb k' k0); reflexivity.
  - rewrite IH. destruct (String.eqb_spec k' k0) as [E1|E1];
      destruct (String.eqb_spec k' k) as [E2|E2]; congruence.
Qed.

Lemma obj_get_app l1 l2 k :
  obj_get (l1 ++ l2) k =
  match obj_get l1 k with Some v => Some v | None => obj_get l2 k end.
Proof.
  induction l1 as [|[k0 v0] l1 IH]; simpl; [reflexivity|].
  destruct (String.eqb k k0); [reflexivity | exact IH].
Qed.

(** [{...o, ...e}]: a key gets its last value in [e], or else its value in
    [o]. *)
Lemma spread_obj_get_spec (o e : record) (k : string) :
  obj_get (spread o e) k =
  match obj_get (rev e) k with Some v => Some v | None => obj_get o k end.
Proof.
  unfold spread. revert o; induction e as [|[k0 v0] e IH]; intros o; simpl;
    [reflexivity|].
  rewrite IH, obj_get_app, obj_get_set. simpl.
  destruct (obj_get (rev e) k); [reflexivity|].
  destruct (String.eqb k k0); reflexivity.
Qed.

(** The ingest function's [FILEMANAGER_INGESTER_TAG_NAME]: the tag key
    constant when its props carry no [environment]; otherwise only what that
    environment sets, the default record being replaced by [...props]. *)
Theorem ingest_tag_name_env (p : ingest_function_props) :
  obj_get (ingest_environment p) "FILEMANAGER_INGESTER_TAG_NAME" =
  match ip_environment p with
  | None => Some FILEMANAGER_INGEST_ID_TAG_NAME
  | Some e => obj_get (rev e) "FILEMANAGER_INGESTER_TAG_NAME"
  end.
Proof.
  unfold ingest_environment, function_environment, ingest_super_props.
  cbn [environment]. rewrite spread_obj_get_spec.
  destruct (ip_environment p) as [e|].
  - destruct (obj_get (rev e) "FILEMANAGER_INGESTER_TAG_NAME"); reflexivity.
  - reflexivity.
Qed.

(** The presign access key may only list buckets and get objects: every
    statement grants exactly [s3:ListBucket], [s3:ListBucketVersions] and
    [s3:GetObject], there is one statement per bucket, and each plain or
    cache bucket gets one on the bucket and its objects. *)
Theorem access_key_read_only (fileManagerBuckets cacheBuckets : list string) :
  (forall st, In st (accessKeyPolicies fileManagerBuckets cacheBuckets) ->
     actions st = ["s3:ListBucket"; "s3:ListBucketVersions"; "s3:GetObject"]) /\
  length (accessKeyPolicies fileManagerBuckets cacheBuckets) =
    length fileManagerBuckets + length cacheBuckets /\
  (forall b, In b fileManagerBuckets \/ In b cacheBuckets ->
     exists st, In st (accessKeyPolicies fileManagerBuckets cacheBuckets) /\
       resources st = [String.append "arn:aws:s3:::" b;
                       String.append "arn:aws:s3:::" (String.append b "/*")]).
Proof.
  unfold accessKeyPolicies, formatPoliciesForBucket. split; [|split].
  - intros st Hst. apply in_map_iff in Hst as (b & <- & _). reflexivity.
  - rewrite length_map, length_app. reflexivity.
  - intros b Hb. eexists. split; [apply in_map, in_or_app; exact Hb | reflexivity].
Qed.

End FunctionEnvironmentFacts.

(* ------------------------------------------------------------------ *)
(** ** Primary keys of [s3_metadata] and [s3_event] *)

Module TableKeys.
Import S3Metadata S3MetadataFacts S3Event S3EventLog ProjectorFacts.

Lemma exec_pk d s d' :
  NoDup (map s3_metadata_id (s3_metadata_rows d)) -> exec d s = Some d' ->
  NoDup (map s3_metadata_id (s3_metadata_rows d')).
Proof.
  intros Hnd. destruct s as [o|h|o|h|m|m|id]; simpl.
  - destruct (existsb _ _); intros E; inversion E; subst; exact Hnd.
  - destruct (existsb _ _); intros E; inversion E; subst; exact Hnd.
  - destruct (existsb _ _); intros E; inversion E; subst; exact Hnd.
  - destruct (existsb _ _); intros E; inversion E; subst; exact Hnd.
  - destruct (row_ok d m (s3_metadata_rows d)) eqn:Ok; intros E; inversion E; subst.
    simpl. constructor; [|exact Hnd].
    unfold row_ok in Ok. repeat rewrite andb_true_iff in Ok.
    destruct Ok as [[[[[_ Hid] _] _] _] _].
    apply negb_true_iff in Hid. intros Hin. apply in_map_iff in Hin as (r & Er & Hr).
    assert (Hx : existsb (fun r => Nat.eqb (s3_metadata_id r) (s3_metadata_id m))
                   (s3_metadata_rows d) = true).
    { apply existsb_exists. exists r. split; [exact Hr | apply Nat.eqb_eq; exact Er]. }
    congruence.
  - destruct (existsb _ (s3_metadata_rows d)).
    + destruct (row_ok _ _ _); intros E; inversion E; subst. simpl.
      constructor; [|apply NoDup_map_filter; exact Hnd].
      intros Hin. apply in_map_iff in Hin as (r & Er & Hr).
      unfold other_rows in Hr. apply filter_In in Hr as [_ Hr].
      rewrite Er, Nat.eqb_refl in Hr. discriminate.
    + intros E; inversion E; subst; exact Hnd.
  - intros E; inversion E; subst. simpl. apply NoDup_map_filter. exact Hnd.
Qed.

Lemma run_pk ss d :
  NoDup (map s3_metadata_id (s3_metadata_rows d)) ->
  NoDup (map s3_metadata_id (s3_metadata_rows (run d ss))).
Proof.
  revert d. induction ss as [|s ss IH]; simpl; [auto|].
  intros d Hd. apply IH. destruct (exec d s) eqn:E; [apply (exec_pk d s); auto | auto].
Qed.

(** Whatever statements run on the empty database, no two [s3_metadata]
    rows share an [s3_metadata_id]: inserts of a present id fail, and an
    update replaces the row of its id. *)
Theorem s3_metadata_pk_unique (ss : list statement) :
  NoDup (map s3_metadata_id (s3_metadata_rows (run empty_db ss))).
Proof. apply run_pk. constructor. Qed.

(** The rows [s3_event] can hold. *)
Lemma insert_all_inv tbl es :
  NoDup (map s3_event_id tbl) ->
  (forall r, In r tbl ->
     is_some (ev_event_type r) && is_some (ev_event_time r) && is_some (ev_sequencer r) &&
     is_some (ev_bucket r) && is_some (ev_key r) = true) ->
  NoDup (map s3_event_id (insert_all tbl es)) /\
  (forall r, In r (insert_all tbl es) ->
     is_some (ev_event_type r) && is_some (ev_event_time r) && is_some (ev_sequencer r) &&
     is_some (ev_bucket r) && is_some (ev_key r) = true).
Proof.
  revert tbl. induction es as [|e es IH]; intros tbl Hnd Hrows; simpl; [auto|].
  apply IH.
  - unfold insert_s3_event.
    destruct (negb (existsb _ tbl) && _ && _ && _ && _ && _) eqn:Ok; [|exact Hnd].
    repeat rewrite andb_true_iff in Ok. destruct Ok as [[[[[Hid _] _] _] _] _].
    simpl. constructor; [|exact Hnd]. apply negb_true_iff in Hid.
    intros Hin. apply in_map_iff in Hin as (r & Er & Hr).
    assert (Hx : existsb (fun r => Nat.eqb (s3_event_id r) (s3_event_id e)) tbl = true).
    { apply existsb_exists. exists r. split; [exact Hr | apply Nat.eqb_eq; exact Er]. }
    congruence.
  - unfold insert_s3_event.
    destruct (negb (existsb _ tbl) && _ && _ && _ && _ && _) eqn:Ok; [|exact Hrows].
    intros r [<-|Hr]; [|apply Hrows; exact Hr].
    repeat rewrite andb_true_iff in Ok. repeat rewrite andb_true_iff.
    tauto.
Qed.

Lemma insert_s3_event_some tbl e t : insert_s3_event tbl e = Some t -> t = e :: tbl.
Proof.
  unfold insert_s3_event.
  match goal with |- context [if ?c then _ else _] => destruct c end; congruence.
Qed.

Lemma insert_all_incl tbl es : incl (insert_all tbl es) (tbl ++ es).
Proof.
  revert tbl; induction es as [|e es IH]; intros tbl; simpl.
  - rewrite app_nil_r. apply incl_refl.
  - intros r Hr. apply IH in Hr. apply in_app_or in Hr as [Hr|Hr].
    + destruct (insert_s3_event tbl e) as [t|] eqn:Ei.
      * apply insert_s3_event_some in Ei. subst t.
        destruct Hr as [<-|Hr]; apply in_or_app; simpl; auto.
      * apply in_or_app; auto.
    + apply in_or_app. right. right. exact Hr.
Qed.

(** Whatever inserts run on the empty [s3_event] table, its rows have
    distinct ids and every [not null] column set, and every row is one of the
    inserted values, later inserts first. *)
Theorem s3_event_inserts_inv (es : list s3_event) :
  NoDup (map s3_event_id (insert_all [] es)) /\
  (forall r, In r (insert_all [] es) ->
     ev_event_type r <> None /\ ev_event_time r <> None /\ ev_sequencer r <> None /\
     ev_bucket r <> None /\ ev_key r <> None) /\
  incl (insert_all [] es) es.
Proof.
  destruct (insert_all_inv [] es) as [Hnd Hrows]; [constructor | intros r []|].
  split; [exact Hnd|]. split.
  - intros r Hr. specialize (Hrows r Hr). repeat rewrite andb_true_iff in Hrows.
    destruct r as [id [t|] [ti|] [sq|] [b|] [k|] v sz et]; simpl in *;
      intuition (try discriminate).
  - apply insert_all_incl.
Qed.

End TableKeys.

(* ------------------------------------------------------------------ *)
(** ** The ingest rules of the later configuration *)

Module IngestRulesFacts.
Import EventSource EventSourceFacts EventSourceRules IngestFunction IngestRules.

Ltac no_star :=
  simpl; intros c Hc; repeat (destruct Hc as [<-|Hc]; [discriminate|]); contradiction.

Lemma append_empty_r s : String.append s "" = s.
Proof. induction s; simpl; congruence. Qed.

Lemma wildcard_literal lit s :
  (forall c, In c (list_ascii_of_string lit) -> c <> "*"%char) ->
  wildcard_match lit s = true <-> s = lit.
Proof.
  intros Hl. rewrite <- (append_empty_r lit) at 1.
  rewrite wildcard_lit_prefix by exact Hl. split.
  - intros (b & -> & H). apply wildcard_empty in H as ->. apply append_empty_r.
  - intros ->. exists "". split; [symmetry; apply append_empty_r | reflexivity].
Qed.

(** The plain ingest pattern, as the comment above it says: NOT key is an
    upload test file AND (size > 0 OR NOT key ends with ['/']). *)
Lemma ingest_pattern_iff_spec n :
  object_pattern_matches ingestPattern n = true <->
  object_key n <> "byob-icav2/.iap_upload_test.tmp" /\
  object_key n <> "testdata/.iap_upload_test.tmp" /\
  ((exists x, object_size n = Some x /\ 0 < x) \/
   ~ (exists p, object_key n = String.append p "/")).
Proof.
  rewrite <- (wildcard_literal "byob-icav2/.iap_upload_test.tmp" (object_key n))
    by no_star.
  rewrite <- (wildcard_literal "testdata/.iap_upload_test.tmp" (object_key n))
    by no_star.
  rewrite <- wildcard_slash.
  unfold object_pattern_matches, ingestPattern. cbn [existsb forallb fst snd].
  unfold matcher_matches, get_field. cbn [forallb existsb].
  rewrite !orb_false_r, !andb_true_r.
  destruct (wildcard_match "byob-icav2/.iap_upload_test.tmp" (object_key n));
  destruct (wildcard_match "testdata/.iap_upload_test.tmp" (object_key n));
  destruct (wildcard_match "*/" (object_key n));
  destruct (object_size n) as [x|]; simpl.
  all: rewrite ?orb_false_r, ?orb_true_r, ?Nat.ltb_lt.
  all: split; [intros H | intros (H0 & H1 & [(y & E & Hy)|H2])]; try discriminate;
    try congruence.
  all: try (injection E as <-; exact Hy).
  all: split; [discriminate|]; split; [discriminate|]; eauto.
Qed.

(** The plain ingest pattern, as the comment above it says: NOT key is an
    upload test file AND (size > 0 OR NOT key ends with ['/']). *)
Theorem ingest_pattern_iff n :
  object_pattern_matches ingestPattern n = true <->
  object_key n <> "byob-icav2/.iap_upload_test.tmp" /\
  object_key n <> "testdata/.iap_upload_test.tmp" /\
  ((exists x, object_size n = Some x /\ 0 < x) \/
   ~ (exists p, object_key n = String.append p "/")).
Proof. apply ingest_pattern_iff_spec. Qed.

(** The cache ingest pattern, as the comment above it says: NOT key is an
    upload test file AND NOT key in cache AND (size > 0 OR NOT key ends with
    ['/']). *)
Lemma ingest_cache_pattern_iff_spec n :
  object_pattern_matches ingestCachePattern n = true <->
  object_key n <> "byob-icav2/.iap_upload_test.tmp" /\
  object_key n <> "testdata/.iap_upload_test.tmp" /\
  ~ (exists a b, object_key n =
       String.append "byob-icav2/" (String.append a (String.append "/cache/" b))) /\
  ((exists x, object_size n = Some x /\ 0 < x) \/
   ~ (exists p, object_key n = String.append p "/")).
Proof.
  rewrite <- (wildcard_literal "byob-icav2/.iap_upload_test.tmp" (object_key n))
    by no_star.
  rewrite <- (wildcard_literal "testdata/.iap_upload_test.tmp" (object_key n))
    by no_star.
  rewrite <- wildcard_cache_key, <- wildcard_slash.
  unfold object_pattern_matches, ingestCachePattern. cbn [existsb forallb fst snd].
  unfold matcher_matches, get_field. cbn [forallb existsb].
  rewrite !orb_false_r, !andb_true_r.
  destruct (wildcard_match "byob-icav2/.iap_upload_test.tmp" (object_key n));
  destruct (wildcard_match "testdata/.iap_upload_test.tmp" (object_key n));
  destruct (wildcard_match "byob-icav2/*/cache/*" (object_key n));
  destruct (wildcard_match "*/" (object_key n));
  destruct (object_size n) as [x|]; simpl.
  all: rewrite ?orb_false_r, ?orb_true_r, ?Nat.ltb_lt.
  all: split; [intros H | intros (H0 & H1 & H3 & [(y & E & Hy)|H2])]; try discriminate;
    try congruence.
  all: try (injection E as <-; exact Hy).
  all: split; [discriminate|]; split; [discriminate|]; split; [discriminate|]; eauto.
Qed.

(** The cache ingest pattern, as the comment above it says: NOT key is an
    upload test file AND NOT key in cache AND (size > 0 OR NOT key ends with
    ['/']). *)
Theorem ingest_cache_pattern_iff n :
  object_pattern_matches ingestCachePattern n = true <->
  object_key n <> "byob-icav2/.iap_upload_test.tmp" /\
  object_key n <> "testdata/.iap_upload_test.tmp" /\
  ~ (exists a b, object_key n =
       String.append "byob-icav2/" (String.append a (String.append "/cache/" b))) /\
  ((exists x, object_size n = Some x /\ 0 < x) \/
   ~ (exists p, object_key n = String.append p "/")).
Proof. apply ingest_cache_pattern_iff_spec. Qed.

(** A notification is ingested iff it comes from S3, has one of the six
    event types, and either its bucket is a cache bucket and the cache
    pattern matches, or its bucket is a plain bucket (or, on [PROD] only, a
    cross-account bucket) and the plain pattern matches. *)
Lemma ingested_iff_spec stage cacheBuckets buckets crossAccountBuckets n :
  ingested stage cacheBuckets buckets crossAccountBuckets n = true <->
  source n = "aws.s3" /\
  In (detail_type n)
    ["Object Created"; "Object Deleted"; "Object Restore Completed";
     "Object Restore Expired"; "Object Storage Class Changed";
     "Object Access Tier Changed"] /\
  ((In (bucket_name n) cacheBuckets /\
    object_pattern_matches ingestCachePattern n = true) \/
   ((In (bucket_name n) buckets \/
     (stage = "PROD" /\ In (bucket_name n) crossAccountBuckets)) /\
    object_pattern_matches ingestPattern n = true)).
Proof.
  unfold ingested, getIngestRules.
  rewrite !existsb_app, !orb_true_iff, !existsb_exists.
  destruct (String.eqb_spec stage "PROD") as [Hp|Hp]; split.
  - intros [(r & Hr & Hm)|[(r & Hr & Hm)|(r & Hr & Hm)]];
      apply in_map_iff in Hr as (b & <- & Hb);
      apply rule_matches_iff in Hm as (Hs & Ht & -> & Hq); tauto.
  - intros (Hs & Ht & [[Hb Hq]|[[Hb|[_ Hb]] Hq]]); [left|right; left|right; right];
      (eexists; split; [apply in_map; exact Hb | apply rule_matches_iff; auto]).
  - intros [(r & Hr & Hm)|[(r & Hr & Hm)|(r & Hr & Hm)]];
      [| |contradiction];
      apply in_map_iff in Hr as (b & <- & Hb);
      apply rule_matches_iff in Hm as (Hs & Ht & -> & Hq); tauto.
  - intros (Hs & Ht & [[Hb Hq]|[[Hb|[E _]] Hq]]); [left|right; left|contradiction];
      (eexists; split; [apply in_map; exact Hb | apply rule_matches_iff; auto]).
Qed.

(** A notification is ingested iff it comes from S3, has one of the six
    event types, and either its bucket is a cache bucket and the cache
    pattern matches, or its bucket is a plain bucket (or, on [PROD] only, a
    cross-account bucket) and the plain pattern matches. *)
Theorem ingested_iff stage cacheBuckets buckets crossAccountBuckets n :
  ingested stage cacheBuckets buckets crossAccountBuckets n = true <->
  source n = "aws.s3" /\
  In (detail_type n)
    ["Object Created"; "Object Deleted"; "Object Restore Completed";
     "Object Restore Expired"; "Object Storage Class Changed";
     "Object Access Tier Changed"] /\
  ((In (bucket_name n) cacheBuckets /\
    object_pattern_matches ingestCachePattern n = true) \/
   ((In (bucket_name n) buckets \/
     (stage = "PROD" /\ In (bucket_name n) crossAccountBuckets)) /\
    object_pattern_matches ingestPattern n = true)).
Proof. apply ingested_iff_spec. Qed.

(** The upload test objects [byob-icav2/.iap_upload_test.tmp] and
    [testdata/.iap_upload_test.tmp] are never ingested, on any stage and for
    any bucket lists. *)
Theorem upload_test_object_never_ingested stage cacheBuckets buckets crossAccountBuckets n :
  object_key n = "byob-icav2/.iap_upload_test.tmp" \/
  object_key n = "testdata/.iap_upload_test.tmp" ->
  ingested stage cacheBuckets buckets crossAccountBuckets n = false.
Proof.
  intros Hk. apply not_true_iff_false. rewrite ingested_iff_spec.
  intros (_ & _ & [[_ Hq]|[_ Hq]]).
  - apply ingest_cache_pattern_iff_spec in Hq as (H1 & H2 & _). tauto.
  - apply ingest_pattern_iff_spec in Hq as (H1 & H2 & _). tauto.
Qed.

Lemma upload_test_object_never_ingested_witness :
  let n := mk_notification "aws.s3" "Object Created" "bucket-a"
             "testdata/.iap_upload_test.tmp" (Some 12) in
  (object_key n = "byob-icav2/.iap_upload_test.tmp" \/
   object_key n = "testdata/.iap_upload_test.tmp") /\
  ingested "PROD" ["cache-bucket"] ["bucket-a"] ["cross-bucket"] n = false.
Proof.
  intros n.
  assert (Hk : object_key n = "byob-icav2/.iap_upload_test.tmp" \/
               object_key n = "testdata/.iap_upload_test.tmp") by (right; reflexivity).
  split; [exact Hk|].
  exact (upload_test_object_never_ingested "PROD" ["cache-bucket"] ["bucket-a"]
           ["cross-bucket"] n Hk).
Defined.

(** The presign access key of the later configuration may only list
    buckets and get objects, on every plain, cache and cross-account bucket,
    whatever the stage. *)
Theorem stateful_access_key_read_only (buckets cacheBuckets crossAccountBuckets : list string) :
  (forall sts st,
     In sts (statefulAccessKeyPolicies buckets cacheBuckets crossAccountBuckets) ->
     In st sts ->
     actions st = ["s3:ListBucket"; "s3:ListBucketVersions"; "s3:GetObject"]) /\
  (forall b, In b buckets \/ In b cacheBuckets \/ In b crossAccountBuckets ->
     exists sts st,
       In sts (statefulAccessKeyPolicies buckets cacheBuckets crossAccountBuckets) /\
       In st sts /\
       resources st = [String.append "arn:aws:s3:::" b;
                       String.append "arn:aws:s3:::" (String.append b "/*")]).
Proof.
  unfold statefulAccessKeyPolicies, formatPoliciesForBucket, getAllowedBuckets. split.
  - intros sts st [<-|[]] Hst. apply in_map_iff in Hst as (b & <- & _). reflexivity.
  - intros b Hb. eexists. eexists. split; [left; reflexivity|].
    split; [apply in_map|reflexivity]. apply in_or_app.
    destruct Hb as [Hb|Hb]; [left; exact Hb | right; apply in_or_app; exact Hb].
Qed.

End IngestRulesFacts.
